(** * propwriter: the dependency-gated agent scheduler

    A shallow embedding of [services/dependency_graph.py],
    [services/context_manager.py], [services/trigger_controller.py] and the
    recovery path of [engine/proposal_engine.py], with the properties of
    the scheduler stated and proved over it.

    Python dictionaries whose iteration order is observable
    ([DependencyGraph.dependencies], [TriggerController.agent_callbacks])
    are insertion-ordered association lists; dictionaries that are only
    looked up, updated and replaced ([agent_status], the contexts, the
    version counters) are [gmap string _]. *)

From stdpp Require Import gmap strings list fin_maps relations pretty.
From Stdlib Require Import Ascii ZArith.

#[global] Set Warnings "-clear-no-such-hyp".

(** ** Python values held in contexts and outputs ([Any]) *)

#[warnings="-register-all"]
Inductive pyval :=
| PNone
| PStr (s : string)
| PInt (z : Z)
| PList (l : list pyval)
| PDict (d : list (string * pyval)).

(** ** Insertion-ordered dictionaries *)

Fixpoint dict_get {V} (k : string) (d : list (string * V)) : option V :=
  match d with
  | [] => None
  | (k', v) :: d' => if decide (k' = k) then Some v else dict_get k d'
  end.

Definition dict_keys {V} (d : list (string * V)) : list string := d.*1.

(** ** [repr] of a string

    A string of the model is the sequence of the code points of the Python
    string, each below 256.  [repr] puts the string between single quotes,
    or between double quotes when it holds a single quote and no double
    one; it escapes the backslash and the quote it has chosen, writes tab,
    newline and carriage return as [\t], [\n] and [\r], and every other
    character that [str.isprintable] refuses as [\x] and two hexadecimal
    digits. *)

Definition single_quote : ascii := Ascii.ascii_of_N 39.
Definition double_quote : ascii := Ascii.ascii_of_N 34.
Definition backslash : ascii := Ascii.ascii_of_N 92.

(** [str.isprintable] on the code points below 256: the control
    characters, the no-break space and the soft hyphen are not. *)
Definition isprintable (n : N) : bool :=
  ((32 <=? n)%N && (n <? 127)%N) || ((161 <=? n)%N && negb (n =? 173)%N).

Definition hex_digit (n : N) : ascii :=
  if (n <? 10)%N then Ascii.ascii_of_N (48 + n) else Ascii.ascii_of_N (87 + n).

Definition repr_char (quote c : ascii) : string :=
  let n := Ascii.N_of_ascii c in
  if bool_decide (c = quote) || bool_decide (c = backslash) then
    String backslash (String c "")
  else if (n =? 9)%N then String backslash "t"
  else if (n =? 10)%N then String backslash "n"
  else if (n =? 13)%N then String backslash "r"
  else if isprintable n then String c ""
  else String backslash
         (String "x" (String (hex_digit (n / 16)) (String (hex_digit (n mod 16)) ""))).

Fixpoint has_char (c : ascii) (s : string) : bool :=
  match s with
  | EmptyString => false
  | String c' s' => bool_decide (c' = c) || has_char c s'
  end.

Fixpoint repr_chars (quote : ascii) (s : string) : string :=
  match s with
  | EmptyString => EmptyString
  | String c s' => repr_char quote c +:+ repr_chars quote s'
  end.

Definition repr (s : string) : string :=
  let quote :=
    if has_char single_quote s && negb (has_char double_quote s)
    then double_quote else single_quote in
  String quote (repr_chars quote s +:+ String quote "").

(** ** The status record of an agent ([AgentStatus], trigger_controller.py)

    [state] is the string the source stores; [output] is [PNone] and
    [error] is [None] when unset. *)

Record AgentStatus := mk_status {
  state : string;
  timestamp : Z;
  version : Z;
  output : pyval;
  error : option string
}.

(** * services/dependency_graph.py *)

Module DependencyGraph.

(** [self.dependencies : Dict[str, List[str]]] *)
Record t := mk { dependencies : list (string * list string) }.

(** [__init__] *)
Definition init : t := mk [].

(** [if agent not in d: d[agent] = []] followed by
    [d[agent].append(depends_on)]: the key keeps its position when it is
    already present, and is added at the end otherwise. *)
Fixpoint append_to (agent depends_on : string) (d : list (string * list string))
  : list (string * list string) :=
  match d with
  | [] => [(agent, [depends_on])]
  | (k, deps) :: d' =>
      if decide (k = agent) then (k, deps ++ [depends_on]) :: d'
      else (k, deps) :: append_to agent depends_on d'
  end.

Definition add_dependency (g : t) (agent depends_on : string) : t :=
  mk (append_to agent depends_on (dependencies g)).

(** [self.dependencies.get(agent, [])] *)
Definition deps_of (g : t) (agent : string) : list string :=
  default [] (dict_get agent (dependencies g)).

(** [agent_status.get(dep) and agent_status[dep].state == "completed"] *)
Definition dep_completed (agent_status : gmap string AgentStatus) (dep : string)
  : bool :=
  match agent_status !! dep with
  | Some st => bool_decide (state st = "completed")
  | None => false
  end.

(** [check_dependencies_met] *)
Definition check_dependencies_met (g : t) (agent : string)
    (agent_status : gmap string AgentStatus) : bool :=
  forallb (dep_completed agent_status) (deps_of g agent).

(** [get_dependents]: every key whose list contains [agent], in the
    dictionary's order. *)
Definition get_dependents (g : t) (agent : string) : list string :=
  (filter (λ kv, agent ∈ kv.2) (dependencies g)).*1.

(** *** Cycle detection

    [visited] is the local dictionary of [has_circular_dependency], with
    the source's marks: [-1] for a node being visited, [1] for a processed
    one.  The closure [visit] mutates it; here it is threaded through.

    [visit] calls itself once for each edge it follows, and the interpreter
    lets calls nest only as deep as its recursion limit allows: [fuel] is
    the number of nested calls of [visit] there is room for, and [None] is
    the [RecursionError] that one call more raises.  Nothing in the source
    catches it, so it leaves [has_circular_dependency]. *)

Definition visiting_mark : Z := (-1)%Z.
Definition processed_mark : Z := 1%Z.

(** A [for]/[any] loop that calls [rec] on each element and returns [True]
    at the first call that does. *)
Fixpoint visit_each (rec : gmap string Z → string → option (bool * gmap string Z))
    (agents : list string) (visited : gmap string Z)
  : option (bool * gmap string Z) :=
  match agents with
  | [] => Some (false, visited)
  | a :: rest =>
      match rec visited a with
      | None => None
      | Some (true, visited') => Some (true, visited')
      | Some (false, visited') => visit_each rec rest visited'
      end
  end.

Fixpoint visit (g : t) (fuel : nat) (visited : gmap string Z) (agent : string)
  : option (bool * gmap string Z) :=
  match fuel with
  | O => None
  | S fuel' =>
      if decide (visited !! agent = Some visiting_mark) then Some (true, visited)
      else if decide (visited !! agent = Some processed_mark) then Some (false, visited)
      else
        match visit_each (visit g fuel') (deps_of g agent)
                (<[agent := visiting_mark]> visited) with
        | None => None
        | Some (true, visited') => Some (true, visited')
        | Some (false, visited') =>
            Some (false, <[agent := processed_mark]> visited')
        end
  end.

(** [any(visit(agent) for agent in self.dependencies)], with room for
    [fuel] nested calls of [visit]. *)
Definition has_circular_dependency_fuel (g : t) (fuel : nat)
  : option (bool * gmap string Z) :=
  visit_each (visit g fuel) (dict_keys (dependencies g)) ∅.

(** Every name that occurs in the graph, as a key or as a prerequisite. *)
Definition nodes (g : t) : list string :=
  dict_keys (dependencies g) ++ concat (dependencies g).*2.

(** A depth that [visit] does not exceed on [g], whatever its edges are. *)
Definition enough_fuel (g : t) : nat := S (length (nodes g)).

(** What [has_circular_dependency] returns when the recursion limit leaves
    room for [enough_fuel g] nested calls; by
    [has_circular_dependency_fuel_stable] below, any greater depth gives
    the same answer.  This is the check as [run_all] uses it: the model of
    a run is about graphs within the recursion limit, and leaves out the
    [RecursionError] that a longer chain of prerequisites raises out of
    [run_all]. *)
Definition has_circular_dependency (g : t) : bool :=
  match has_circular_dependency_fuel g (enough_fuel g) with
  | Some (b, _) => b
  | None => false
  end.

(** The graph as a relation: [edge g a b] when [b] is a prerequisite of [a]. *)
Definition edge (g : t) (a b : string) : Prop := b ∈ deps_of g a.

Definition has_cycle (g : t) : Prop := ∃ a, tc (edge g) a a.

End DependencyGraph.

(** * services/context_manager.py *)

Module ContextManager.

(** One record of [context_history], with the content its ['update']
    dictionary has now.  [datetime.now()] is an input of the operations
    that log ([now]). *)
Record history_entry := mk_entry {
  timestamp : Z;
  context_name : string;
  update : gmap string pyval;
  version : Z
}.

(** [_log_context_update] stores the dictionary it is given, not a copy.
    The dictionaries given to [update_master_context] and
    [update_step_context] are merged into a context and held by their
    record alone; the one given to [initialize_master_context] becomes
    [self.master_context] itself, so that its record changes with every
    later [update_master_context].  [master_record] is the position of
    that record in the history, for as long as [self.master_context] is
    the dictionary it holds; it is not an attribute of the Python object.
    The dictionaries passed to the methods are taken to be held by no one
    else. *)
Record t := mk {
  master_context : gmap string pyval;
  step_contexts : gmap string (gmap string pyval);
  context_versions : gmap string Z;   (* a [defaultdict(int)] *)
  context_history : list history_entry;
  master_record : option nat
}.

(** [__init__] *)
Definition init : t := mk ∅ ∅ ∅ [] None.

(** [self.context_versions[name]] on a [defaultdict(int)]: reading a
    missing key stores [0] under it. *)
Definition versions_getitem (name : string) (vs : gmap string Z)
  : Z * gmap string Z :=
  match vs !! name with
  | Some v => (v, vs)
  | None => (0%Z, <[name := 0%Z]> vs)
  end.

(** [_log_context_update] *)
Definition _log_context_update (cm : t) (now : Z) (name : string)
    (upd : gmap string pyval) : t :=
  let '(v, vs) := versions_getitem name (context_versions cm) in
  mk (master_context cm) (step_contexts cm) vs
     (context_history cm ++ [mk_entry now name upd v]) (master_record cm).

(** [initialize_master_context]: [self.master_context = initial_data], and
    the record appended holds that same dictionary. *)
Definition initialize_master_context (cm : t) (now : Z)
    (initial_data : gmap string pyval) : t :=
  _log_context_update
    (mk initial_data (step_contexts cm) (context_versions cm) (context_history cm)
        (Some (length (context_history cm))))
    now "master_context" initial_data.

(** [get_master_context] *)
Definition get_master_context (cm : t) : gmap string pyval := master_context cm.

(** The record [e] once its dictionary has the content [upd]. *)
Definition with_update (upd : gmap string pyval) (e : history_entry)
  : history_entry :=
  mk_entry (timestamp e) (context_name e) upd (version e).

(** The history once [self.master_context] has the content [m]: the record
    that holds that dictionary shows it. *)
Definition history_with_master (cm : t) (m : gmap string pyval)
  : list history_entry :=
  match master_record cm with
  | Some i => alter (with_update m) i (context_history cm)
  | None => context_history cm
  end.

(** [update_master_context]: [dict.update] changes the dictionary in
    place and lets the new entries win. *)
Definition update_master_context (cm : t) (now : Z)
    (new_data : gmap string pyval) : t :=
  let m := new_data ∪ master_context cm in
  _log_context_update
    (mk m (step_contexts cm) (context_versions cm) (history_with_master cm m)
        (master_record cm))
    now "master_context" new_data.

(** [self.master_context.get(key, {})] *)
Definition master_get (cm : t) (key : string) : pyval :=
  default (PDict []) (master_context cm !! key).

(** [self.step_contexts.get(agent, {}).get('output', '')] *)
Definition output_of (cm : t) (agent : string) : pyval :=
  default (PStr "") (default ∅ (step_contexts cm !! agent) !! "output").

(** The dictionary that [initialize_step_context] stores for an agent that
    has none: the [if]/[elif] chain over the agent's name. *)
Definition base_context (cm : t) (agent_id : string) : gmap string pyval :=
  if decide (agent_id = "scope_agent") then
    <["client_info" := master_get cm "client_info"]>
    (<["engagement_details" := master_get cm "engagement_details"]>
    (<["specific_requirements" := master_get cm "specific_requirements"]> ∅))
  else if decide (agent_id = "value_proposition_agent") then
    <["client_info" := master_get cm "client_info"]>
    (<["engagement_details" := master_get cm "engagement_details"]>
    (<["proposal_needs" := master_get cm "proposal_needs"]> ∅))
  else if decide (agent_id = "quality_judge_agent") then
    <["section_content" := PNone]> (<["section_id" := PNone]> ∅)
  else if decide (agent_id ∈ ["approach_agent"; "pricing_agent"; "team_agent"]) then
    <["client_info" := master_get cm "client_info"]>
    (<["engagement_details" := master_get cm "engagement_details"]>
    (<["scope_output" := output_of cm "scope_agent"]> ∅))
  else if decide (agent_id = "timeline_agent") then
    <["client_info" := master_get cm "client_info"]>
    (<["engagement_details" := master_get cm "engagement_details"]>
    (<["approach_output" := output_of cm "approach_agent"]> ∅))
  else if decide (agent_id = "executive_summary_agent") then
    <["client_info" := master_get cm "client_info"]>
    (<["engagement_details" := master_get cm "engagement_details"]>
    (<["value_proposition_output" := output_of cm "value_proposition_agent"]> ∅))
  else ∅.

(** [initialize_step_context]: only [if agent_id not in self.step_contexts]. *)
Definition initialize_step_context (cm : t) (agent_id : string) : t :=
  match step_contexts cm !! agent_id with
  | Some _ => cm
  | None =>
      mk (master_context cm)
         (<[agent_id := base_context cm agent_id]> (step_contexts cm))
         (context_versions cm) (context_history cm) (master_record cm)
  end.

(** [get_step_context] *)
Definition get_step_context (cm : t) (agent_id : string) : gmap string pyval :=
  default ∅ (step_contexts cm !! agent_id).

(** [update_step_context] *)
Definition update_step_context (cm : t) (now : Z) (agent_id : string)
    (new_data : gmap string pyval) : t :=
  let ctx := default ∅ (step_contexts cm !! agent_id) in
  let '(v, vs) := versions_getitem agent_id (context_versions cm) in
  _log_context_update
    (mk (master_context cm)
        (<[agent_id := new_data ∪ ctx]> (step_contexts cm))
        (<[agent_id := (v + 1)%Z]> vs)
        (context_history cm) (master_record cm))
    now agent_id new_data.

(** [get_context_history] *)
Definition get_context_history (cm : t) : list history_entry := context_history cm.

(** [get_context_version]: [self.context_versions.get(agent_id, 0)] *)
Definition get_context_version (cm : t) (agent_id : string) : Z :=
  default 0%Z (context_versions cm !! agent_id).

End ContextManager.

(** * services/trigger_controller.py *)

Module TriggerController.

(** The controller holds references to the context manager and to the
    dependency graph; the engine holds the same objects, so they are
    fields of the one state.  [agent_callbacks] keeps the registered names
    in registration order; what a callback does when it is awaited is an
    input of the model (an [outcome]).  [error_log] collects the messages
    passed to [self.logger.error]. *)
Record t := mk {
  context_manager : ContextManager.t;
  dependency_graph : DependencyGraph.t;
  agent_status : gmap string AgentStatus;
  agent_callbacks : list string;
  error_log : list string
}.

(** [__init__] *)
Definition init (cm : ContextManager.t) (g : DependencyGraph.t) : t :=
  mk cm g ∅ [] [].

Definition set_context_manager (tc : t) (cm : ContextManager.t) : t :=
  mk cm (dependency_graph tc) (agent_status tc) (agent_callbacks tc) (error_log tc).

Definition set_agent_status (tc : t) (sts : gmap string AgentStatus) : t :=
  mk (context_manager tc) (dependency_graph tc) sts (agent_callbacks tc) (error_log tc).

Definition log_error (tc : t) (msg : string) : t :=
  mk (context_manager tc) (dependency_graph tc) (agent_status tc)
     (agent_callbacks tc) (error_log tc ++ [msg]).

(** [self.agent_callbacks[agent_id] = callback] on the key list. *)
Definition set_callback (agent_id : string) (keys : list string) : list string :=
  if decide (agent_id ∈ keys) then keys else keys ++ [agent_id].

(** [register_agent] *)
Definition register_agent (tc : t) (now : Z) (agent_id : string)
    (dependencies : list string) : t :=
  mk (context_manager tc)
     (foldl (λ g dep, DependencyGraph.add_dependency g agent_id dep)
            (dependency_graph tc) dependencies)
     (<[agent_id := mk_status "pending" now 1 PNone None]> (agent_status tc))
     (set_callback agent_id (agent_callbacks tc))
     (error_log tc).

(** What an awaited callback does: it returns a dictionary or raises an
    [Exception] whose [str] is [msg]. *)
Inductive outcome :=
| Returned (result : list (string * pyval))
| Raised (msg : string).

(** Where a call of [execute_agent] stands after it has run up to its next
    suspension point: it returned, having made a
    [create_task(execute_agent(d))] for each [d] of [spawned]; or its
    callback was called with [input_context] and is awaited; or an
    exception left it. *)
Inductive progress :=
| Finished (tc : t) (spawned : list string)
| Suspended (tc : t) (input_context : gmap string pyval)
| Escaped (tc : t) (msg : string).

(** The controller as the call left it. *)
Definition controller_of (p : progress) : t :=
  match p with
  | Finished tc _ | Suspended tc _ | Escaped tc _ => tc
  end.

(** The context the callback was called with, if it was called. *)
Definition input_of (p : progress) : option (gmap string pyval) :=
  match p with
  | Suspended _ input_context => Some input_context
  | _ => None
  end.

(** [str(KeyError(key))]: the [repr] of the key. *)
Definition key_error (key : string) : string := repr key.

(** The [except Exception as e] block of [execute_agent]; the subscript
    [self.agent_status[agent_id]] raises in its turn for an unknown name. *)
Definition on_exception (tc : t) (agent_id : string) (msg : string) : progress :=
  match agent_status tc !! agent_id with
  | None => Escaped tc (key_error agent_id)
  | Some st =>
      Finished
        (log_error
           (set_agent_status tc
              (<[agent_id := mk_status "failed" (timestamp st) (version st)
                                       (output st) (Some msg)]> (agent_status tc)))
           ("Agent " +:+ agent_id +:+ " failed with error: " +:+ msg))
        []
  end.

(** [_trigger_dependents]: the dependents for which a task is created. *)
Definition _trigger_dependents (tc : t) (agent_id : string) : list string :=
  filter (λ d, DependencyGraph.check_dependencies_met (dependency_graph tc) d
                 (agent_status tc) = true)
         (DependencyGraph.get_dependents (dependency_graph tc) agent_id).

(** [execute_agent] from its start to the [await] of the callback. *)
Definition execute_agent_begin (tc : t) (agent_id : string) : progress :=
  if negb (DependencyGraph.check_dependencies_met (dependency_graph tc) agent_id
             (agent_status tc))
  then Finished tc []
  else
    let cm := ContextManager.initialize_step_context (context_manager tc) agent_id in
    let tc1 := set_context_manager tc cm in
    let input_context := ContextManager.get_step_context cm agent_id in
    if decide (agent_id ∈ agent_callbacks tc) then Suspended tc1 input_context
    else on_exception tc1 agent_id (key_error agent_id).

(** [execute_agent] from the moment the awaited callback is over. *)
Definition execute_agent_resume (tc : t) (now : Z) (agent_id : string)
    (o : outcome) : progress :=
  match o with
  | Raised msg => on_exception tc agent_id msg
  | Returned result =>
      match dict_get "output" result with
      | None => on_exception tc agent_id (key_error "output")
      | Some out =>
          let cm := ContextManager.update_step_context (context_manager tc) now
                      agent_id {["output" := out]} in
          let tc1 := set_context_manager tc cm in
          match agent_status tc !! agent_id with
          | None => on_exception tc1 agent_id (key_error agent_id)
          | Some st =>
              let tc2 :=
                set_agent_status tc1
                  (<[agent_id := mk_status "completed" (timestamp st) (version st)
                                           out (error st)]> (agent_status tc)) in
              Finished tc2 (_trigger_dependents tc2 agent_id)
          end
      end
  end.

Definition cycle_message : string :=
  "Circular dependency detected. Cannot execute agents.".

(** [run_all] up to its [await asyncio.gather] of the tasks: [inl] when the
    cycle check logs its error and returns, the names of the tasks it
    created otherwise. *)
Definition run_all_begin (tc : t) : t + list string :=
  if DependencyGraph.has_circular_dependency (dependency_graph tc)
  then inl (log_error tc cycle_message)
  else inr (filter (λ a, DependencyGraph.check_dependencies_met
                           (dependency_graph tc) a (agent_status tc) = true)
                   (agent_callbacks tc)).

End TriggerController.

(** * One run of [run_all] on the event loop

    [asyncio] runs one task at a time and switches only at an [await] that
    suspends; in [execute_agent] that is the await of the callback.  A run
    is therefore a sequence of atomic steps: a created task runs from its
    start to that await, or a suspended task runs from the end of its
    callback to its return.  Which task moves next is left open, which
    covers every order the loop can choose. *)

Module Run.

Import TriggerController.

(** A task made by [asyncio.create_task(self.execute_agent(agent))];
    [gathered] tells whether [run_all] put it in the list it awaits. *)
Record task := mk_task { agent : string; gathered : bool }.

(** How the call of [run_all] ended. *)
Inductive ending :=
| CycleReported
| ReturnedNormally
| RaisedOut (msg : string).

Record t := mk {
  ctl : TriggerController.t;
  ready : list task;                            (* created, not started *)
  awaiting : list task;                         (* suspended in the callback *)
  calls : list (string * gmap string pyval);    (* callbacks called, with input *)
  escaped : list (task * string);               (* ended by an exception *)
  returned : option ending                      (* [None]: [run_all] still waits *)
}.

(** The state in which [run_all] suspends (or returns, on a cycle). *)
Definition run_all (tc : TriggerController.t) : t :=
  match run_all_begin tc with
  | inl tc' => mk tc' [] [] [] [] (Some CycleReported)
  | inr names => mk tc (map (λ a, mk_task a true) names) [] [] [] None
  end.

Definition spawn (names : list string) : list task :=
  map (λ a, mk_task a false) names.

(** The loop runs the first part of a created task [tk]. *)
Definition after_begin (s : t) (tk : task) (others : list task) : t :=
  match execute_agent_begin (ctl s) (agent tk) with
  | Finished tc names =>
      mk tc (others ++ spawn names) (awaiting s) (calls s) (escaped s) (returned s)
  | Suspended tc input_context =>
      mk tc others (awaiting s ++ [tk]) (calls s ++ [(agent tk, input_context)])
         (escaped s) (returned s)
  | Escaped tc msg =>
      mk tc others (awaiting s) (calls s) (escaped s ++ [(tk, msg)]) (returned s)
  end.

(** The callback of a suspended task [tk] is over with outcome [o]. *)
Definition after_resume (s : t) (tk : task) (others : list task) (now : Z)
    (o : outcome) : t :=
  match execute_agent_resume (ctl s) now (agent tk) o with
  | Finished tc names =>
      mk tc (ready s ++ spawn names) others (calls s) (escaped s) (returned s)
  | Suspended tc _ =>
      mk tc (ready s) others (calls s) (escaped s) (returned s)
  | Escaped tc msg =>
      mk tc (ready s) others (calls s) (escaped s ++ [(tk, msg)]) (returned s)
  end.

Definition set_returned (s : t) (e : ending) : t :=
  mk (ctl s) (ready s) (awaiting s) (calls s) (escaped s) (Some e).

(** [asyncio.gather] is over when none of the tasks given to it is still
    created or suspended; it raises what one of them raised. *)
Definition gather_done (s : t) : Prop :=
  ∀ tk, tk ∈ ready s ++ awaiting s → gathered tk = false.

Inductive step : t → t → Prop :=
| step_begin s l1 tk l2 :
    ready s = l1 ++ tk :: l2 →
    step s (after_begin s tk (l1 ++ l2))
| step_resume s l1 tk l2 now o :
    awaiting s = l1 ++ tk :: l2 →
    step s (after_resume s tk (l1 ++ l2) now o)
| step_return s :
    returned s = None →
    gather_done s →
    (∀ tk msg, (tk, msg) ∈ escaped s → gathered tk = false) →
    step s (set_returned s ReturnedNormally)
| step_raise s tk msg :
    returned s = None →
    (tk, msg) ∈ escaped s →
    gathered tk = true →
    step s (set_returned s (RaisedOut msg)).

(** The states a run of [run_all] on [tc] can be in. *)
Definition reachable (tc : TriggerController.t) (s : t) : Prop :=
  rtc step (run_all tc) s.

(** A task is outstanding when it was created and has not finished. *)
Definition outstanding (s : t) : list task := ready s ++ awaiting s.

(** How often the callback of [a] has been called. *)
Definition launches (s : t) (a : string) : nat :=
  length (filter (λ c, c.1 = a) (calls s)).

End Run.

(** * engine/proposal_engine.py: registration and recovery *)

Module ProposalEngine.

Import TriggerController.

(** The engine's state is the controller's: it shares the context manager
    and the dependency graph with it. *)

(** [_register_agents]; [clock i] is the [datetime.now()] of the [i]-th
    registration. *)
Definition _register_agents (tc : TriggerController.t) (clock : nat → Z)
  : TriggerController.t :=
  let tc := register_agent tc (clock 0) "scope_agent" [] in
  let tc := register_agent tc (clock 1) "value_proposition_agent" ["scope_agent"] in
  let tc := register_agent tc (clock 2) "executive_summary_agent"
              ["value_proposition_agent"] in
  let tc := register_agent tc (clock 3) "approach_agent" ["executive_summary_agent"] in
  let tc := register_agent tc (clock 4) "timeline_agent" ["approach_agent"] in
  let tc := register_agent tc (clock 5) "team_agent" ["timeline_agent"] in
  register_agent tc (clock 6) "pricing_agent" ["team_agent"].

(** The dictionary returned by [_create_recovery_point]: copies of the
    master context and of each step context. *)
Record recovery_point := mk_recovery_point {
  rp_master_context : gmap string pyval;
  rp_step_contexts : gmap string (gmap string pyval)
}.

Definition _create_recovery_point (tc : TriggerController.t) : recovery_point :=
  mk_recovery_point
    (ContextManager.master_context (context_manager tc))
    (ContextManager.step_contexts (context_manager tc)).

(** The body of the loop of [_recover_from_error]. *)
Definition reset_status (st : AgentStatus) : AgentStatus :=
  mk_status "pending" (timestamp st) (version st) PNone None.

(** [_recover_from_error]: the master context is from now on the
    dictionary of the recovery point, which no record of the history
    holds. *)
Definition _recover_from_error (tc : TriggerController.t) (rp : recovery_point)
  : TriggerController.t :=
  let cm := context_manager tc in
  let cm' := ContextManager.mk (rp_master_context rp) (rp_step_contexts rp)
               (ContextManager.context_versions cm)
               (ContextManager.context_history cm) None in
  set_agent_status (set_context_manager tc cm') (reset_status <$> agent_status tc).

End ProposalEngine.

(** * services/proposal_assembler.py: collecting and ordering the sections

    The parts of the assembler that do not render: what it collects from
    the step contexts and how it orders it.  The dictionary [sections] is
    only looked up by its consumers here, so it is a [gmap]. *)

Module ProposalAssembler.

(** [agent_to_section_map] *)
Definition agent_to_section_map : list (string * string) :=
  [("executive_summary_agent", "executive_summary");
   ("approach_agent", "approach");
   ("pricing_agent", "pricing");
   ("scope_agent", "scope");
   ("team_agent", "team");
   ("timeline_agent", "timeline");
   ("value_proposition_agent", "value_proposition")].

(** The body of the loop of [_collect_section_content]. *)
Definition collect_one (agent_id : string) (content : gmap string pyval)
    (sections : gmap string pyval) : gmap string pyval :=
  match content !! "output", dict_get agent_id agent_to_section_map with
  | Some out, Some section_name => <[section_name := out]> sections
  | _, _ => sections
  end.

(** [_collect_section_content]: the loop over [step_contexts.items()].  No
    two agents of [agent_to_section_map] share a section name, so the
    order in which the loop meets the step contexts does not show in what
    it returns. *)
Definition _collect_section_content (cm : ContextManager.t) : gmap string pyval :=
  map_fold collect_one ∅ (ContextManager.step_contexts cm).

(** [ordered_sections] of [_structure_narrative] *)
Definition ordered_sections : list string :=
  ["executive_summary"; "understanding"; "approach"; "scope"; "timeline";
   "team"; "pricing"; "appendices"; "value_proposition"].

(** An element of [narrative_sections]. *)
Record section_entry := mk_section { section_id : string; content : pyval }.

(** The dictionary returned by [_structure_narrative]. *)
Record narrative := mk_narrative {
  sections : list section_entry;
  transitions : gmap string pyval
}.

(** [_structure_narrative] *)
Definition _structure_narrative (collected : gmap string pyval) : narrative :=
  mk_narrative
    (map (λ id, mk_section id (default (PStr "") (collected !! id)))
         (filter (λ id, is_Some (collected !! id)) ordered_sections))
    ∅.

(** [_apply_formatting] returns the content as it is. *)
Definition _apply_formatting (structured_content : narrative) : narrative :=
  structured_content.

(** What is collected from a map of step contexts: under the section
    name of an agent of the map, the output of its step context. *)
Definition collected_from (m : gmap string (gmap string pyval))
    (collected : gmap string pyval) : Prop :=
  ∀ name out,
    collected !! name = Some out ↔
    ∃ agent_id ctx, dict_get agent_id agent_to_section_map = Some name ∧
                    m !! agent_id = Some ctx ∧ ctx !! "output" = Some out.

End ProposalAssembler.

(** * Predicates used to state the properties *)

(** ** Marks of the cycle check *)

Module DfsSpec.

Import DependencyGraph.

Definition Visiting (v : gmap string Z) (x : string) : Prop :=
  v !! x = Some visiting_mark.

Definition Processed (v : gmap string Z) (x : string) : Prop :=
  v !! x = Some processed_mark.

Definition marked (v : gmap string Z) (x : string) : Prop :=
  Visiting v x ∨ Processed v x.

#[global] Instance marked_dec v x : Decision (marked v x).
Proof. unfold marked, Visiting, Processed. apply _. Defined.

(** [v'] extends [v]: the same nodes are being visited, and no processed
    node is lost. *)
Definition extends (v v' : gmap string Z) : Prop :=
  (∀ x, Visiting v' x ↔ Visiting v x) ∧ (∀ x, Processed v x → Processed v' x).

(** The processed nodes are closed under the edges and lie on no cycle. *)
Definition settled (g : t) (v : gmap string Z) : Prop :=
  (∀ x y, Processed v x → edge g x y → Processed v y) ∧
  (∀ x, Processed v x → ¬ tc (edge g) x x).

(** The number of nodes of the graph that carry no mark: the measure that
    bounds the depth of [visit]. *)
Definition unvisited (g : t) (v : gmap string Z) : nat :=
  length (filter (λ x, ¬ marked v x) (nodes g)).

End DfsSpec.

(** ** Runs *)

Module RunSpec.

Import DependencyGraph TriggerController Run.

(** A controller as a sequence of [register_agent] calls leaves it: the
    dictionaries have no repeated key, every callback has a status and
    conversely, and every key of the graph is a registered agent. *)
Record registered (tc : TriggerController.t) : Prop := mk_registered {
  registered_callbacks : NoDup (agent_callbacks tc);
  registered_status : ∀ a, a ∈ agent_callbacks tc ↔ is_Some (agent_status tc !! a);
  registered_keys : NoDup (dict_keys (dependencies (dependency_graph tc)));
  registered_graph :
    ∀ a, a ∈ dict_keys (dependencies (dependency_graph tc)) → a ∈ agent_callbacks tc
}.

(** Nothing has run yet: every status is [pending]. *)
Definition all_pending (tc : TriggerController.t) : Prop :=
  ∀ a st, agent_status tc !! a = Some st → state st = "pending".

(** The controller at the start of a run. *)
Definition fresh (tc : TriggerController.t) : Prop :=
  registered tc ∧ all_pending tc.

(** The agents whose callback has been called. *)
Definition called (s : Run.t) : list string := (calls s).*1.

Definition met (s : Run.t) (a : string) : Prop :=
  check_dependencies_met (dependency_graph (ctl s)) a (agent_status (ctl s)) = true.


(** A unit is eligible: pending with every prerequisite completed. *)
Definition eligible (tc : TriggerController.t) (a : string) : Prop :=
  (∃ st, agent_status tc !! a = Some st ∧ state st = "pending") ∧
  check_dependencies_met (dependency_graph tc) a (agent_status tc) = true.

(** The invariant of a run: no agent has two tasks or two calls; a task
    that is suspended has had its callback called; a status leaves
    [pending] only once the callback was called and is over; a task exists
    only for an agent whose prerequisites are all completed; no exception
    has left a task. *)
Record inv (s : Run.t) : Prop := mk_inv {
  inv_registered : registered (ctl s);
  inv_once : NoDup ((agent <$> ready s) ++ called s);
  inv_awaiting_called : ∀ a, a ∈ agent <$> awaiting s → a ∈ called s;
  inv_awaiting : NoDup (agent <$> awaiting s);
  inv_terminal : ∀ a st, agent_status (ctl s) !! a = Some st →
                   state st ≠ "pending" → a ∈ called s ∧ a ∉ agent <$> awaiting s;
  inv_met : ∀ a, a ∈ (agent <$> ready s) ++ called s → met s a;
  inv_tasks : ∀ a, a ∈ (agent <$> ready s) ++ called s → a ∈ agent_callbacks (ctl s);
  inv_escaped : escaped s = [];
  inv_returned : ∀ msg, returned s ≠ Some (RaisedOut msg)
}.

(** The reading of "the input context is rebuilt at launch from the
    current shared context plus the recorded outputs of all prerequisites":
    the context passed is the one built now, and it holds the recorded
    output of every prerequisite. *)
Definition rebuilt_at_launch (tc : TriggerController.t) (a : string)
    (input_context : gmap string pyval) : Prop :=
  input_context = ContextManager.base_context (context_manager tc) a ∧
  ∀ p st, p ∈ deps_of (dependency_graph tc) a → agent_status tc !! p = Some st →
    ∃ key, input_context !! key = Some (output st).

End RunSpec.

(** * Concrete graphs, controllers and runs *)

Module Examples.

Import TriggerController Run.

Definition empty_controller : TriggerController.t :=
  TriggerController.init ContextManager.init DependencyGraph.init.

(** [A] needs [B], [B] needs [C], [C] needs [A]. *)
Definition cycle_controller : TriggerController.t :=
  register_agent
    (register_agent (register_agent empty_controller 0 "A" ["B"]) 0 "B" ["C"])
    0 "C" ["A"].

(** A diamond: [A] and [B] need [C]; [D] needs [A] and [B]. *)
Definition diamond_controller : TriggerController.t :=
  register_agent
    (register_agent
       (register_agent (register_agent empty_controller 0 "C" []) 0 "A" ["C"])
       0 "B" ["C"])
    0 "D" ["A"; "B"].

(** [mid] needs [root], [leaf] needs [mid]. *)
Definition chain_controller : TriggerController.t :=
  register_agent
    (register_agent (register_agent empty_controller 0 "root" []) 0 "mid" ["root"])
    0 "leaf" ["mid"].

Definition returns (out : string) : outcome := Returned [("output", PStr out)].








(** The run of the chain in which [run_all] returns once [root] is done
    and [mid] has been started. *)
Definition chain_root_started : Run.t :=
  after_begin (run_all chain_controller) (mk_task "root" true) [].

Definition chain_root_done : Run.t :=
  after_resume chain_root_started (mk_task "root" true) [] 1 (returns "R").

Definition chain_mid_started : Run.t :=
  after_begin chain_root_done (mk_task "mid" false) [].

Definition chain_returned : Run.t :=
  set_returned chain_mid_started ReturnedNormally.


(** A controller whose master context changes after the step context of
    [scope_agent] was built by a first launch. *)
Definition scope_controller : TriggerController.t :=
  register_agent
    (TriggerController.init
       (ContextManager.update_master_context ContextManager.init 0
          {["client_info" := PStr "Acme"]})
       DependencyGraph.init)
    0 "scope_agent" [].

Definition scope_relaunch_controller : TriggerController.t :=
  let tc := controller_of (execute_agent_begin scope_controller "scope_agent") in
  set_context_manager tc
    (ContextManager.update_master_context (context_manager tc) 1
       {["client_info" := PStr "Bolt"]}).

(** The engine's registration, after [scope_agent] has completed. *)
Definition engine_controller : TriggerController.t :=
  ProposalEngine._register_agents empty_controller (λ i, Z.of_nat i).

Definition engine_scope_done : TriggerController.t :=
  controller_of
    (execute_agent_resume
       (controller_of (execute_agent_begin engine_controller "scope_agent"))
       7 "scope_agent" (returns "S")).

(** The engine's recovery after that: the snapshot was taken before the
    run. *)
Definition engine_recovered : TriggerController.t :=
  ProposalEngine._recover_from_error engine_scope_done
    (ProposalEngine._create_recovery_point engine_controller).

End Examples.

(** ** Sequences of calls on a context manager *)

Module ContextCalls.

Import ContextManager.

(** A call of one of the methods that change a context manager. *)
Inductive call :=
| InitializeMaster (now : Z) (initial_data : gmap string pyval)
| UpdateMaster (now : Z) (new_data : gmap string pyval)
| InitializeStep (agent_id : string)
| UpdateStep (now : Z) (agent_id : string) (new_data : gmap string pyval).

Definition apply_call (cm : ContextManager.t) (c : call) : ContextManager.t :=
  match c with
  | InitializeMaster now initial_data => initialize_master_context cm now initial_data
  | UpdateMaster now new_data => update_master_context cm now new_data
  | InitializeStep agent_id => initialize_step_context cm agent_id
  | UpdateStep now agent_id new_data => update_step_context cm now agent_id new_data
  end.

Definition apply_calls (cm : ContextManager.t) (cs : list call) : ContextManager.t :=
  foldl apply_call cm cs.

(** The call is [update_step_context] for [agent_id]. *)
Definition is_step_update (agent_id : string) (c : call) : bool :=
  match c with
  | UpdateStep _ a _ => bool_decide (a = agent_id)
  | _ => false
  end.

(** The number of calls of [update_step_context] for [agent_id]. *)
Definition step_updates (agent_id : string) (cs : list call) : nat :=
  length (filter (λ c, is_step_update agent_id c = true) cs).

(** The call writes a record to the history. *)
Definition is_logged (c : call) : bool :=
  match c with
  | InitializeStep _ => false
  | _ => true
  end.

(** The call is [update_master_context]. *)
Definition is_master_update (c : call) : bool :=
  match c with
  | UpdateMaster _ _ => true
  | _ => false
  end.

(** What the call appends to the history of [cm]. *)
Definition record_of (cm : ContextManager.t) (c : call) : list history_entry :=
  match c with
  | InitializeMaster now d | UpdateMaster now d =>
      [mk_entry now "master_context" d (get_context_version cm "master_context")]
  | InitializeStep _ => []
  | UpdateStep now a d => [mk_entry now a d (get_context_version cm a + 1)]
  end.

(** The record that holds the dictionary of the master context shows the
    master context. *)
Definition master_record_shows_master (cm : ContextManager.t) : Prop :=
  ∀ i, master_record cm = Some i →
    update <$> context_history cm !! i = Some (master_context cm).

Definition logged (cs : list call) : nat :=
  length (filter (λ c, is_logged c = true) cs).

(** An agent without a step context has version [0]. *)
Definition versions_follow_contexts (cm : ContextManager.t) : Prop :=
  ∀ a, step_contexts cm !! a = None → get_context_version cm a = 0%Z.

End ContextCalls.

(** ** More about runs *)

Module RunFlow.

Import DependencyGraph TriggerController Run RunSpec.

(** No step context holds an output yet. *)
Definition no_outputs (tc : TriggerController.t) : Prop :=
  ∀ a ctx, ContextManager.step_contexts (context_manager tc) !! a = Some ctx →
    ctx !! "output" = None.







End RunFlow.

(** * More concrete controllers and runs *)

Module MoreExamples.

Import TriggerController Run Examples.

(** A unit whose prerequisite was never registered. *)
Definition ghost_controller : TriggerController.t :=
  register_agent empty_controller 0 "x" ["ghost"].



(** Calls on a context manager: two updates for [a], one for [b]. *)
Definition some_calls : list ContextCalls.call :=
  [ContextCalls.UpdateStep 1 "a" {["k" := PInt 1]};
   ContextCalls.UpdateMaster 2 {["client_info" := PStr "Acme"]};
   ContextCalls.UpdateStep 3 "b" {["k" := PInt 2]};
   ContextCalls.InitializeStep "c";
   ContextCalls.UpdateStep 4 "a" {["k" := PInt 3]}].

(** Calls on a context manager: the master context is initialized, then
    the step context of [a] is updated. *)
Definition master_calls : list ContextCalls.call :=
  [ContextCalls.InitializeMaster 1 {["client_info" := PStr "Acme"]};
   ContextCalls.UpdateStep 2 "a" {["k" := PInt 1]}].

End MoreExamples.

(** * A second run on a controller that was not reset, and a deep chain *)

Module Reruns.

Import TriggerController Run Examples.

(** The first run of the chain, to its end. *)
Definition chain_mid_done : Run.t :=
  after_resume chain_mid_started (mk_task "mid" false) [] 2 (returns "M").

Definition chain_leaf_started : Run.t :=
  after_begin chain_mid_done (mk_task "leaf" false) [].

Definition chain_leaf_done : Run.t :=
  after_resume chain_leaf_started (mk_task "leaf" false) [] 3 (returns "L").

(** The controller as that run leaves it: every unit completed. *)
Definition rerun_controller : TriggerController.t := ctl chain_leaf_done.

(** [run_all] again, as each request to [/context] of main.py does: the
    three units pass the check and get a task. *)
Definition rerun_root_started : Run.t :=
  after_begin (run_all rerun_controller) (mk_task "root" true)
    [mk_task "mid" true; mk_task "leaf" true].




(** In the second run, [mid] is started and then the callback of [root]
    raises. *)
Definition rerun_mid_first : Run.t :=
  after_begin rerun_root_started (mk_task "mid" true) [mk_task "leaf" true].


(** In the second run, the callback of [mid] raises; then [root] completes
    and triggers [mid] again, whose second call returns. *)
Definition rerun_mid_failed : Run.t :=
  after_resume rerun_mid_first (mk_task "mid" true) [mk_task "root" true] 4
    (Raised "boom").




End Reruns.

Module DeepChain.

Import DependencyGraph.

(** The units of a chain are named by their rank. *)
Definition unit_name (i : nat) : string := pretty i.

(** The dictionary of a chain of [n + 1] units: unit [i] needs unit
    [i + 1]. *)
Definition chain_graph (n : nat) : DependencyGraph.t :=
  mk (map (λ i, (unit_name i, [unit_name (S i)])) (seq 0 n)).

(** The calls of [add_dependency] that build it. *)
Definition add_chain (n : nat) : DependencyGraph.t :=
  foldl (λ g i, add_dependency g (unit_name i) (unit_name (S i))) init (seq 0 n).

End DeepChain.

(** * Properties of the cycle check *)

Section dfs.
Import DependencyGraph DfsSpec.
Context (g : DependencyGraph.t).
Implicit Types (v : gmap string Z) (a x : string).

Lemma marks_differ : visiting_mark ≠ processed_mark.
Proof. done. Qed.

Lemma extends_refl v : extends v v.
Proof. by split. Qed.

Lemma extends_trans v1 v2 v3 : extends v1 v2 → extends v2 v3 → extends v1 v3.
Proof.
  intros [Hv1 Hp1] [Hv2 Hp2]. split.
  - intros x. by rewrite Hv2.
  - auto.
Qed.

(** A call that answers [False] leaves its node processed and extends the
    marks. *)
Lemma visit_each_extends rec ds :
  (∀ v a v', a ∈ ds → rec v a = Some (false, v') → Processed v' a ∧ extends v v') →
  ∀ v v', visit_each rec ds v = Some (false, v') →
    (∀ d, d ∈ ds → Processed v' d) ∧ extends v v'.
Proof.
  induction ds as [|d ds IH]; intros Hrec v v' Hrun; simpl in Hrun.
  - simplify_eq. split; [set_solver | apply extends_refl].
  - destruct (rec v d) as [[[] v1]|] eqn:Hd; try done.
    destruct (Hrec _ _ _ ltac:(left) Hd) as [Hpd Hext1].
    destruct (IH (λ v a v' Ha, Hrec v a v' (list_elem_of_further _ _ _ Ha)) _ _ Hrun)
      as [Hall Hext2].
    split; [|by eapply extends_trans].
    intros d' [->|Hd']%elem_of_cons; [by apply Hext2 | auto].
Qed.

Lemma visit_extends fuel v a v' :
  visit g fuel v a = Some (false, v') → Processed v' a ∧ extends v v'.
Proof.
  revert v a v'. induction fuel as [|fuel IH]; intros v a v' Hrun; [done|].
  simpl in Hrun.
  destruct (decide (v !! a = Some visiting_mark)) as [|Hnv]; [done|].
  destruct (decide (v !! a = Some processed_mark)) as [Hp|Hnp].
  { simplify_eq. split; [done | apply extends_refl]. }
  destruct (visit_each _ _ _) as [[[] v2]|] eqn:Hloop; try done. simplify_eq.
  apply visit_each_extends in Hloop as [_ [Hv Hp]]; [|by intros; apply IH].
  split; [apply lookup_insert_eq|]. split.
  - intros x. unfold Visiting. destruct (decide (a = x)) as [->|Hne].
    + rewrite lookup_insert_eq. split; [done | intros ?; by simplify_eq].
    + rewrite lookup_insert_ne by done. unfold Visiting in Hv.
      by rewrite Hv, lookup_insert_ne.
  - intros x Hx. unfold Processed in *. destruct (decide (a = x)) as [->|Hne].
    + by rewrite lookup_insert_eq.
    + rewrite lookup_insert_ne by done. apply Hp. by rewrite lookup_insert_ne.
Qed.

Lemma settled_rtc v x y :
  settled g v → Processed v x → rtc (edge g) x y → Processed v y.
Proof. intros [Hcl _] Hx Hxy. induction Hxy; eauto. Qed.

Lemma visit_each_settled rec ds :
  (∀ v a v', a ∈ ds → rec v a = Some (false, v') →
     Processed v' a ∧ extends v v' ∧ (settled g v → settled g v')) →
  ∀ v v', visit_each rec ds v = Some (false, v') → settled g v → settled g v'.
Proof.
  induction ds as [|d ds IH]; intros Hrec v v' Hrun Hs; simpl in Hrun.
  - by simplify_eq.
  - destruct (rec v d) as [[[] v1]|] eqn:Hd; try done.
    destruct (Hrec _ _ _ ltac:(left) Hd) as (_ & _ & Hs1).
    eapply (IH (λ v a v' Ha, Hrec v a v' (list_elem_of_further _ _ _ Ha))); eauto.
Qed.

Lemma visit_settled fuel v a v' :
  visit g fuel v a = Some (false, v') → settled g v → settled g v'.
Proof.
  revert v a v'. induction fuel as [|fuel IH]; intros v a v' Hrun Hs; [done|].
  simpl in Hrun.
  destruct (decide (v !! a = Some visiting_mark)) as [|Hnv]; [done|].
  destruct (decide (v !! a = Some processed_mark)) as [Hp|Hnp]; [by simplify_eq|].
  destruct (visit_each _ _ _) as [[[] v2]|] eqn:Hloop; try done. simplify_eq.
  assert (settled g (<[a:=visiting_mark]> v)) as Hs1.
  { assert (∀ x, Processed (<[a:=visiting_mark]> v) x ↔ Processed v x) as Heq.
    { intros x. unfold Processed. destruct (decide (a = x)) as [->|Hne].
      - rewrite lookup_insert_eq. split; [done | by intros ?].
      - by rewrite lookup_insert_ne. }
    destruct Hs as [Hcl Hac]. split.
    - intros x y Hx%Heq Hxy. apply Heq. eauto.
    - intros x Hx%Heq. eauto. }
  pose proof Hloop as Hloop'.
  apply visit_each_extends in Hloop' as [Hdeps [Hv Hp]];
    [|by intros; eapply visit_extends].
  apply visit_each_settled in Hloop; [|clear Hloop|done].
  2:{ intros v1 b v1' _ Hb. pose proof (visit_extends _ _ _ _ Hb) as [??].
      split_and!; eauto. }
  assert (Visiting v2 a) as Hva by (apply Hv, lookup_insert_eq).
  assert (¬ Processed v2 a) as Hnpa.
  { unfold Visiting, Processed in *. rewrite Hva. by intros ?. }
  assert (∀ x, Processed (<[a:=processed_mark]> v2) x ↔ x = a ∨ Processed v2 x) as Heq.
  { intros x. unfold Processed. destruct (decide (a = x)) as [->|Hne].
    - rewrite lookup_insert_eq. split; [by left | done].
    - rewrite lookup_insert_ne by done. split; [by right | by intros [?|?]]. }
  split.
  - intros x y [->|Hx]%Heq Hxy; apply Heq; right.
    + by apply Hdeps.
    + destruct Hloop as [Hcl _]. eauto.
  - intros x [->|Hx]%Heq Hcyc.
    + apply Hnpa. inversion Hcyc as [? ? Hay|? y ? Hay Hya]; simplify_eq.
      * by apply Hdeps.
      * eapply settled_rtc; [done| |by apply tc_rtc]. by apply Hdeps.
    + destruct Hloop as [_ Hac]. by eapply Hac.
Qed.

(** Soundness of a [True] answer: the nodes being visited all reach the
    node the call starts from. *)
Lemma visit_each_cycle rec ds :
  (∀ v a v', a ∈ ds → rec v a = Some (false, v') → extends v v') →
  (∀ v a v', a ∈ ds → rec v a = Some (true, v') →
     (∀ x, Visiting v x → tc (edge g) x a) → has_cycle g) →
  ∀ v v', visit_each rec ds v = Some (true, v') →
    (∀ x d, Visiting v x → d ∈ ds → tc (edge g) x d) → has_cycle g.
Proof.
  induction ds as [|d ds IH]; intros Hext Hrec v v' Hrun Hreach; simpl in Hrun;
    [done|].
  destruct (rec v d) as [[[] v1]|] eqn:Hd; try done.
  - eapply Hrec; [left|done|]. intros x Hx. apply Hreach; [done | left].
  - eapply (IH (λ v a v' Ha, Hext v a v' (list_elem_of_further _ _ _ Ha))
               (λ v a v' Ha, Hrec v a v' (list_elem_of_further _ _ _ Ha))); [done|].
    intros x d' Hx Hd'. apply Hreach; [|by right].
    by apply (Hext _ _ _ ltac:(left) Hd).
Qed.

Lemma visit_cycle fuel v a v' :
  visit g fuel v a = Some (true, v') →
  (∀ x, Visiting v x → tc (edge g) x a) → has_cycle g.
Proof.
  revert v a v'. induction fuel as [|fuel IH]; intros v a v' Hrun Hreach; [done|].
  simpl in Hrun.
  destruct (decide (v !! a = Some visiting_mark)) as [Hv|Hnv].
  { exists a. exact (Hreach _ Hv). }
  destruct (decide (v !! a = Some processed_mark)) as [Hp|Hnp]; [done|].
  destruct (visit_each _ _ _) as [[[] v2]|] eqn:Hloop; try done.
  eapply visit_each_cycle in Hloop; [done| | |].
  - intros ???? Hb. by apply visit_extends in Hb as [_ ?].
  - intros ???? Hb Hr. by eapply IH.
  - intros x d Hx Hd. unfold Visiting in Hx.
    destruct (decide (a = x)) as [->|Hne].
    + by apply tc_once.
    + rewrite lookup_insert_ne in Hx by done.
      eapply tc_r; [by apply Hreach | done].
Qed.

(** *** Termination: every descent marks a node that was not marked *)

Lemma deps_of_nodes a d : d ∈ deps_of g a → d ∈ nodes g.
Proof.
  unfold deps_of, nodes. destruct g as [deps]; simpl.
  induction deps as [|[k ds] deps IH]; simpl; [set_solver|].
  destruct (decide (k = a)); simpl; set_solver.
Qed.

Lemma key_nodes a : a ∈ dict_keys (dependencies g) → a ∈ nodes g.
Proof. unfold nodes. set_solver. Qed.

Lemma extends_marked v v' x : extends v v' → marked v x → marked v' x.
Proof. intros [Hv Hp] [?|?]; [left; by apply Hv | right; auto]. Qed.

Lemma unmarked_mono (l : list string) v v' :
  (∀ x, marked v x → marked v' x) →
  length (filter (λ x, ¬ marked v' x) l) ≤ length (filter (λ x, ¬ marked v x) l).
Proof.
  intros Hm. induction l as [|x l IH]; [done|].
  rewrite !filter_cons. repeat case_decide; simpl; try lia.
  exfalso; eauto.
Qed.

Lemma unmarked_lt (l : list string) v v' a :
  a ∈ l → ¬ marked v a → marked v' a → (∀ x, marked v x → marked v' x) →
  length (filter (λ x, ¬ marked v' x) l) < length (filter (λ x, ¬ marked v x) l).
Proof.
  intros Ha Hna Hma Hm. induction l as [|x l IH]; [by apply elem_of_nil in Ha|].
  apply elem_of_cons in Ha as [<-|Ha].
  - rewrite !filter_cons. rewrite decide_False by eauto.
    rewrite decide_True by done. simpl.
    apply Nat.lt_succ_r. by apply unmarked_mono.
  - specialize (IH Ha). rewrite !filter_cons.
    repeat case_decide; simpl; try lia. exfalso; eauto.
Qed.

Lemma unvisited_extends v v' : extends v v' → unvisited g v' ≤ unvisited g v.
Proof. intros He. apply unmarked_mono. intros x. by apply extends_marked. Qed.

Lemma unvisited_mark v a :
  a ∈ nodes g → ¬ marked v a →
  unvisited g (<[a:=visiting_mark]> v) < unvisited g v.
Proof.
  intros Ha Hna. apply (unmarked_lt _ _ _ a); [done..| |].
  - left. apply lookup_insert_eq.
  - intros x Hx. destruct (decide (a = x)) as [->|Hne]; [done|].
    unfold marked, Visiting, Processed in *. by rewrite !lookup_insert_ne.
Qed.

Lemma visit_each_terminates rec ds (bound : nat) :
  (∀ v a, a ∈ ds → unvisited g v < bound → is_Some (rec v a)) →
  (∀ v a v', rec v a = Some (false, v') → extends v v') →
  ∀ v, unvisited g v < bound → is_Some (visit_each rec ds v).
Proof.
  induction ds as [|d ds IH]; intros Hrec Hext v Hlt; simpl; [by eexists|].
  destruct (Hrec v d ltac:(left) Hlt) as [[[] v1] Hd]; rewrite Hd; [by eexists|].
  apply IH; [|done|].
  - intros ?? Ha. apply Hrec. by right.
  - apply Hext, unvisited_extends in Hd. lia.
Qed.

Lemma visit_terminates fuel v a :
  a ∈ nodes g → unvisited g v < fuel → is_Some (visit g fuel v a).
Proof.
  revert v a. induction fuel as [|fuel IH]; intros v a Ha Hlt; [lia|].
  simpl.
  destruct (decide (v !! a = Some visiting_mark)) as [|Hnv]; [by eexists|].
  destruct (decide (v !! a = Some processed_mark)) as [|Hnp]; [by eexists|].
  assert (¬ marked v a) as Hna by (by intros [?|?]).
  pose proof (unvisited_mark v a Ha Hna) as Hdec.
  destruct (visit_each_terminates (visit g fuel) (deps_of g a) fuel) with
    (v := <[a:=visiting_mark]> v) as [[[] v2] Hloop].
  - intros v1 d Hd Hv1. apply IH; [by eapply deps_of_nodes | done].
  - intros v1 d v1' Hd. by apply visit_extends in Hd as [_ ?].
  - lia.
  - rewrite Hloop. by eexists.
  - rewrite Hloop. by eexists.
Qed.



(** *** The answer of [has_circular_dependency] *)

Lemma has_circular_dependency_fuel_terminates fuel :
  enough_fuel g ≤ fuel → is_Some (has_circular_dependency_fuel g fuel).
Proof.
  intros Hle. unfold has_circular_dependency_fuel.
  apply (visit_each_terminates _ _ fuel).
  - intros v a Ha Hlt. apply visit_terminates; [by apply key_nodes | done].
  - intros v a v' Ha. by apply visit_extends in Ha as [_ ?].
  - unfold enough_fuel in Hle. pose proof (length_filter (λ x, ¬ marked ∅ x) (nodes g)).
    unfold unvisited. lia.
Qed.


Lemma edge_key a b : edge g a b → a ∈ dict_keys (dependencies g).
Proof.
  unfold edge, deps_of, dict_keys. destruct g as [deps]; simpl.
  induction deps as [|[k ds] deps IH]; simpl; [set_solver|].
  destruct (decide (k = a)); simpl; set_solver.
Qed.

Lemma has_circular_dependency_true :
  has_circular_dependency g = true → has_cycle g.
Proof.
  unfold has_circular_dependency, has_circular_dependency_fuel.
  destruct (visit_each _ _ _) as [[[] v]|] eqn:Hrun; try done. intros _.
  eapply visit_each_cycle in Hrun; [done| | |].
  - intros ???? Hb. by apply visit_extends in Hb as [_ ?].
  - intros ???? Hb Hr. by eapply visit_cycle.
  - intros x d Hx. unfold Visiting in Hx. by rewrite lookup_empty in Hx.
Qed.

Lemma has_circular_dependency_false :
  has_circular_dependency g = false → ¬ has_cycle g.
Proof.
  unfold has_circular_dependency.
  destruct (has_circular_dependency_fuel_terminates (enough_fuel g)) as [[b v] Hrun];
    [done|].
  rewrite Hrun. intros -> [a Hcyc]. unfold has_circular_dependency_fuel in Hrun.
  assert (settled g ∅) as Hs0.
  { split; intros x; unfold Processed; by rewrite lookup_empty. }
  pose proof Hrun as Hrun'.
  apply visit_each_extends in Hrun' as [Hkeys _];
    [|by intros; eapply visit_extends].
  apply visit_each_settled in Hrun as [_ Hac]; [|clear Hrun|done].
  2:{ intros v1 b v1' _ Hb. pose proof (visit_extends _ _ _ _ Hb) as [??].
      split_and!; [done..|]. by eapply visit_settled. }
  apply (Hac a); [|done]. apply Hkeys.
  inversion Hcyc; simplify_eq; by eapply edge_key.
Qed.

Lemma has_circular_dependency_spec :
  has_circular_dependency g = true ↔ has_cycle g.
Proof.
  split; [apply has_circular_dependency_true|].
  intros Hc. destruct (has_circular_dependency g) eqn:Hb; [done|].
  by apply has_circular_dependency_false in Hb.
Qed.
End dfs.

(** * Properties of a run *)

Section run.
Import DependencyGraph TriggerController Run RunSpec.
Implicit Types (tc : TriggerController.t) (s : Run.t) (a d : string).

Lemma dict_get_NoDup {V} (d : list (string * V)) k v :
  NoDup (dict_keys d) → (k, v) ∈ d → dict_get k d = Some v.
Proof.
  unfold dict_keys. induction d as [|[k' v'] d IH]; simpl; intros Hnd Hin.
  - by apply elem_of_nil in Hin.
  - apply NoDup_cons in Hnd as [Hk' Hnd].
    apply elem_of_cons in Hin as [?|Hin]; simplify_eq.
    + by rewrite decide_True.
    + rewrite decide_False; [by apply IH|].
      intros ->. apply Hk'. apply list_elem_of_fmap. by exists (k, v).
Qed.

Lemma get_dependents_spec g a d :
  NoDup (dict_keys (dependencies g)) →
  d ∈ get_dependents g a → a ∈ deps_of g d ∧ d ∈ dict_keys (dependencies g).
Proof.
  intros Hnd Hd. unfold get_dependents in Hd.
  apply list_elem_of_fmap in Hd as ([k ds] & -> & Hin).
  apply list_elem_of_filter in Hin as [Ha Hin]. simpl in *. split.
  - unfold deps_of. by rewrite (dict_get_NoDup _ _ _ Hnd Hin).
  - apply list_elem_of_fmap. by exists (k, ds).
Qed.

Lemma get_dependents_NoDup g a :
  NoDup (dict_keys (dependencies g)) → NoDup (get_dependents g a).
Proof.
  unfold get_dependents, dict_keys. generalize (dependencies g) as l.
  induction l as [|[k ds] l IH]; simpl; intros Hnd; [constructor|].
  apply NoDup_cons in Hnd as [Hk Hnd]. rewrite filter_cons. simpl.
  case_decide; simpl; [|by apply IH].
  apply NoDup_cons. split; [|by apply IH].
  intros Hin. apply Hk. apply list_elem_of_fmap in Hin as (kv & -> & Hin).
  apply list_elem_of_filter in Hin as [_ Hin].
  apply list_elem_of_fmap. by exists kv.
Qed.

Lemma met_dep_completed g a sts d :
  check_dependencies_met g a sts = true → d ∈ deps_of g a →
  dep_completed sts d = true.
Proof.
  unfold check_dependencies_met. rewrite forallb_forall.
  intros H Hd. apply H. by apply list_elem_of_In.
Qed.

Lemma dep_completed_state sts d :
  dep_completed sts d = true ↔ ∃ st, sts !! d = Some st ∧ state st = "completed".
Proof.
  unfold dep_completed. destruct (sts !! d) as [st|]; split.
  - intros ?%bool_decide_eq_true. eauto.
  - intros (? & ? & ?). simplify_eq. by apply bool_decide_eq_true.
  - done.
  - by intros (? & ? & ?).
Qed.

(** Changing the status of a node that is not completed to another one
    keeps every satisfied check satisfied. *)
Lemma met_insert g b sts a st st' :
  sts !! a = Some st → state st ≠ "completed" →
  check_dependencies_met g b sts = true →
  check_dependencies_met g b (<[a:=st']> sts) = true.
Proof.
  intros Ha Hst. unfold check_dependencies_met. rewrite !forallb_forall.
  intros H d Hd. specialize (H d Hd). apply dep_completed_state in H as (st0 & H0 & Hc).
  apply dep_completed_state. destruct (decide (a = d)) as [->|Hne].
  - simplify_eq.
  - exists st0. by rewrite lookup_insert_ne.
Qed.

Lemma agent_spawn names : agent <$> spawn names = names.
Proof.
  unfold spawn. induction names as [|a names IH]; simpl; [done|]. by f_equal.
Qed.

Lemma agent_gathered names : agent <$> map (λ a, mk_task a true) names = names.
Proof. induction names as [|a names IH]; simpl; [done|]. by f_equal. Qed.

(** With a status on record, the second half of [execute_agent] always
    finishes, and changes nothing but that status (and the contexts). *)
Lemma execute_agent_resume_status tc now a o st :
  agent_status tc !! a = Some st →
  ∃ tc' names st',
    execute_agent_resume tc now a o = Finished tc' names ∧
    agent_status tc' = <[a:=st']> (agent_status tc) ∧
    (state st' = "completed" ∨ state st' = "failed") ∧
    dependency_graph tc' = dependency_graph tc ∧
    agent_callbacks tc' = agent_callbacks tc ∧
    (names = [] ∨ names = _trigger_dependents tc' a).
Proof.
  intros Hst. unfold execute_agent_resume.
  destruct o as [result|msg]; [destruct (dict_get "output" result) as [out|]|].
  - rewrite Hst. eexists _, _, _. split; [done|]. simpl. split_and!; eauto.
  - unfold on_exception. rewrite Hst. eexists _, _, _. split; [done|].
    simpl. split_and!; eauto.
  - unfold on_exception. rewrite Hst. eexists _, _, _. split; [done|].
    simpl. split_and!; eauto.
Qed.

Lemma registered_same tc tc' :
  agent_callbacks tc' = agent_callbacks tc →
  dependency_graph tc' = dependency_graph tc →
  (∀ a, is_Some (agent_status tc' !! a) ↔ is_Some (agent_status tc !! a)) →
  registered tc → registered tc'.
Proof.
  intros Hcb Hg Hst [Hnd Hs Hk Hgr]. split; rewrite ?Hcb, ?Hg; try done.
  intros a. by rewrite Hst.
Qed.

Lemma inv_run_all tc : fresh tc → inv (run_all tc).
Proof.
  intros [Hreg Hpend]. unfold run_all, run_all_begin.
  destruct (has_circular_dependency _).
  - split; unfold called, met; simpl; try done;
      try (by constructor); try (by intros a Ha; apply elem_of_nil in Ha).
    + by apply (registered_same tc).
    + intros a st Hst Hne. by apply Hpend in Hst.
  - split; unfold called, met; simpl; try done;
      try (by constructor); try (by intros a Ha; apply elem_of_nil in Ha).
    + rewrite agent_gathered, app_nil_r. apply NoDup_filter, Hreg.
    + intros a st Hst Hne. by apply Hpend in Hst.
    + intros a. rewrite agent_gathered, app_nil_r.
      by intros [? _]%list_elem_of_filter.
    + intros a. rewrite agent_gathered, app_nil_r.
      by intros [_ ?]%list_elem_of_filter.
Qed.

Lemma inv_step_begin s l1 tk l2 :
  inv s → ready s = l1 ++ tk :: l2 → inv (after_begin s tk (l1 ++ l2)).
Proof.
  intros Hinv Hready.
  assert (agent tk ∈ agent <$> ready s) as Hin.
  { rewrite Hready. set_solver. }
  pose proof (inv_met _ Hinv (agent tk) ltac:(set_solver)) as Hmet.
  pose proof (inv_tasks _ Hinv (agent tk) ltac:(set_solver)) as Hcb.
  destruct Hinv as [Hreg Honce Hac Haw Hterm Hmets Htasks Hesc Hret].
  unfold called, met in *. rewrite Hready in *.
  assert (agent tk ∉ (calls s).*1) as Hncalled.
  { intros Hc. rewrite fmap_app, fmap_cons in Honce.
    apply NoDup_app in Honce as (_ & Hdisj & _). apply (Hdisj (agent tk)); set_solver. }
  unfold after_begin, execute_agent_begin. rewrite Hmet. simpl.
  rewrite decide_True by done.
  assert (∀ input : gmap string pyval,
            ((agent <$> l1 ++ l2) ++ (calls s ++ [(agent tk, input)]).*1)
            ≡ₚ (agent <$> l1 ++ tk :: l2) ++ (calls s).*1) as Hperm.
  { intros input. rewrite !fmap_app, fmap_cons. simpl. solve_Permutation. }
  split; unfold called, met; simpl; try done.
  - by apply (registered_same (ctl s)).
  - by rewrite Hperm.
  - intros a. rewrite !fmap_app. simpl. set_solver.
  - rewrite fmap_app. simpl. apply NoDup_app. split_and!; [done| |apply NoDup_singleton].
    intros a Ha ->%list_elem_of_singleton. by apply Hncalled, Hac.
  - intros a st Hst Hne. destruct (Hterm a st Hst Hne) as [Hc Hna].
    rewrite !fmap_app. simpl.
    split; [set_solver|]. intros [?| ->%list_elem_of_singleton]%elem_of_app; done.
  - intros a Ha. apply (Hmets a). by rewrite <- Hperm.
  - intros a Ha. apply (Htasks a). by rewrite <- Hperm.
Qed.

Lemma trigger_dependents_spec tc a d :
  NoDup (dict_keys (dependencies (dependency_graph tc))) →
  d ∈ _trigger_dependents tc a →
  a ∈ deps_of (dependency_graph tc) d ∧
  d ∈ dict_keys (dependencies (dependency_graph tc)) ∧
  check_dependencies_met (dependency_graph tc) d (agent_status tc) = true.
Proof.
  intros Hnd [Hmet Hd]%list_elem_of_filter.
  apply get_dependents_spec in Hd as [??]; done.
Qed.

Lemma trigger_dependents_NoDup tc a :
  NoDup (dict_keys (dependencies (dependency_graph tc))) →
  NoDup (_trigger_dependents tc a).
Proof. intros Hnd. by apply NoDup_filter, get_dependents_NoDup. Qed.

Lemma inv_step_resume s l1 tk l2 now o :
  inv s → awaiting s = l1 ++ tk :: l2 → inv (after_resume s tk (l1 ++ l2) now o).
Proof.
  intros [Hreg Honce Hac Haw Hterm Hmets Htasks Hesc Hret] Hawait.
  unfold called, met in *. rewrite Hawait in *.
  assert (agent tk ∈ (calls s).*1) as Hcalled.
  { apply Hac. rewrite fmap_app, fmap_cons. set_solver. }
  assert (agent tk ∉ agent <$> l1 ++ l2) as Hnot.
  { rewrite fmap_app, fmap_cons in Haw. rewrite fmap_app.
    apply NoDup_app in Haw as (_ & Hdisj & [Hn _]%NoDup_cons).
    intros [Hin|Hin]%elem_of_app; [|done]. apply (Hdisj _ Hin). by left. }
  destruct (proj1 (registered_status _ Hreg (agent tk))) as [st Hst].
  { apply Htasks. set_solver. }
  assert (state st = "pending") as Hpending.
  { destruct (decide (state st = "pending")) as [|Hne]; [done|].
    destruct (Hterm _ _ Hst Hne) as [_ []]. rewrite fmap_app, fmap_cons. set_solver. }
  unfold after_resume.
  destruct (execute_agent_resume_status (ctl s) now (agent tk) o st Hst)
    as (tc' & names & st' & -> & Hsts & Hst' & Hg & Hcb & Hnames).
  assert (NoDup (dict_keys (dependencies (dependency_graph tc')))) as Hkeys.
  { rewrite Hg. apply Hreg. }
  assert (∀ d, d ∈ names →
            agent tk ∈ deps_of (dependency_graph (ctl s)) d ∧
            d ∈ dict_keys (dependencies (dependency_graph (ctl s))) ∧
            check_dependencies_met (dependency_graph (ctl s)) d (agent_status tc')
              = true) as Hspawned.
  { intros d Hd. destruct Hnames as [->| ->]; [by apply elem_of_nil in Hd|].
    rewrite <- Hg. by apply trigger_dependents_spec. }
  assert (NoDup names) as Hndnames.
  { destruct Hnames as [->| ->]; [constructor | by apply trigger_dependents_NoDup]. }
  assert (∀ d, d ∈ names → d ∉ (agent <$> ready s) ++ (calls s).*1) as Hnew.
  { intros d Hd Hold. destruct (Hspawned d Hd) as (Hdep & _ & _).
    pose proof (met_dep_completed _ _ _ _ (Hmets d Hold) Hdep) as Hc.
    apply dep_completed_state in Hc as (st0 & ? & Hc). simplify_eq.
    by rewrite Hpending in Hc. }
  assert (∀ b, check_dependencies_met (dependency_graph (ctl s)) b
                 (agent_status (ctl s)) = true →
               check_dependencies_met (dependency_graph (ctl s)) b
                 (agent_status tc') = true) as Hkeep.
  { intros b Hb. rewrite Hsts. eapply met_insert; [done| |done].
    by rewrite Hpending. }
  split; unfold called, met; simpl; try done.
  - apply (registered_same (ctl s)); [done..| |done].
    intros a. rewrite Hsts. destruct (decide (agent tk = a)) as [<-|Hne].
    + rewrite lookup_insert_eq, Hst. split; by eexists.
    + by rewrite lookup_insert_ne.
  - rewrite fmap_app, agent_spawn.
    assert (((agent <$> ready s) ++ names) ++ (calls s).*1
            ≡ₚ names ++ ((agent <$> ready s) ++ (calls s).*1)) as ->
      by solve_Permutation.
    apply NoDup_app. split_and!; done.
  - intros a Ha. apply Hac. rewrite fmap_app, fmap_cons.
    rewrite fmap_app in Ha. set_solver.
  - rewrite fmap_app, fmap_cons in Haw. rewrite fmap_app.
    apply NoDup_app in Haw as (? & Hdisj & [_ ?]%NoDup_cons).
    apply NoDup_app. split_and!; [done| |done].
    intros a Ha Ha'. apply (Hdisj a Ha). by right.
  - intros a st0. rewrite Hsts. destruct (decide (agent tk = a)) as [<-|Hne].
    + intros _ _. done.
    + rewrite lookup_insert_ne by done. intros Ha Hne'.
      destruct (Hterm _ _ Ha Hne') as [? Hna]. split; [done|].
      intros Hin. apply Hna. rewrite fmap_app, fmap_cons.
      rewrite fmap_app in Hin. set_solver.
  - intros a. rewrite Hg, fmap_app, agent_spawn.
    intros [[Ha|Ha]%elem_of_app|Ha]%elem_of_app.
    + apply Hkeep, Hmets. set_solver.
    + by apply Hspawned.
    + apply Hkeep, Hmets. set_solver.
  - intros a. rewrite Hcb, fmap_app, agent_spawn.
    intros [[Ha|Ha]%elem_of_app|Ha]%elem_of_app.
    + apply Htasks. set_solver.
    + apply (registered_graph _ Hreg). by apply Hspawned.
    + apply Htasks. set_solver.
Qed.

Lemma inv_step s s' : inv s → step s s' → inv s'.
Proof.
  intros Hinv Hstep. destruct Hstep as [s l1 tk l2 Hr|s l1 tk l2 now o Ha|s ? ? ?|s tk msg ? Hin ?].
  - by apply inv_step_begin.
  - by apply inv_step_resume.
  - destruct Hinv. by split.
  - rewrite (inv_escaped _ Hinv) in Hin. by apply elem_of_nil in Hin.
Qed.

Lemma inv_reachable tc s : fresh tc → reachable tc s → inv s.
Proof.
  intros Hf. unfold reachable. revert s.
  apply rtc_ind_r; [by apply inv_run_all | intros; by eapply inv_step].
Qed.
End run.

Section run_facts.
Import DependencyGraph TriggerController Run RunSpec.
Implicit Types (tc : TriggerController.t) (s : Run.t) (a d : string).


Lemma on_exception_static tc a msg :
  dependency_graph (controller_of (on_exception tc a msg)) = dependency_graph tc ∧
  agent_callbacks (controller_of (on_exception tc a msg)) = agent_callbacks tc.
Proof. unfold on_exception. by destruct (agent_status tc !! a). Qed.

Lemma execute_agent_begin_static tc a :
  dependency_graph (controller_of (execute_agent_begin tc a)) = dependency_graph tc ∧
  agent_callbacks (controller_of (execute_agent_begin tc a)) = agent_callbacks tc.
Proof.
  unfold execute_agent_begin. destruct (negb _); [done|]. simpl.
  case_decide; [done|].
  by destruct (on_exception_static
                 (set_context_manager tc
                    (ContextManager.initialize_step_context (context_manager tc) a))
                 a (key_error a)) as [-> ->].
Qed.

Lemma execute_agent_resume_static tc now a o :
  dependency_graph (controller_of (execute_agent_resume tc now a o))
    = dependency_graph tc ∧
  agent_callbacks (controller_of (execute_agent_resume tc now a o))
    = agent_callbacks tc.
Proof.
  unfold execute_agent_resume. destruct o as [result|msg].
  - destruct (dict_get _ _); [|apply on_exception_static].
    destruct (agent_status tc !! a) eqn:Hst; [done|].
    unfold on_exception. simpl. by rewrite Hst.
  - apply on_exception_static.
Qed.

(** The graph and the registered callbacks do not change during a run. *)
Lemma step_static s s' :
  step s s' →
  dependency_graph (ctl s') = dependency_graph (ctl s) ∧
  agent_callbacks (ctl s') = agent_callbacks (ctl s).
Proof.
  intros [s0 l1 tk l2 _|s0 l1 tk l2 now o _|s0 _ _ _|s0 tk msg _ _ _]; try done.
  - unfold after_begin.
    pose proof (execute_agent_begin_static (ctl s0) (agent tk)) as H.
    by destruct (execute_agent_begin _ _).
  - unfold after_resume.
    pose proof (execute_agent_resume_static (ctl s0) now (agent tk) o) as H.
    by destruct (execute_agent_resume _ _ _ _).
Qed.

Lemma steps_static s s' :
  rtc step s s' →
  dependency_graph (ctl s') = dependency_graph (ctl s) ∧
  agent_callbacks (ctl s') = agent_callbacks (ctl s).
Proof.
  induction 1 as [|s1 s2 s3 H12 _ [IHg IHc]]; [done|].
  apply step_static in H12 as [Hg Hc]. by rewrite IHg, IHc.
Qed.




(** The number of calls of a callback, from the list of the agents called. *)
Lemma launches_absent s a : a ∉ called s → launches s a = 0.
Proof.
  unfold called, launches. induction (calls s) as [|[b i] l IH]; simpl; [done|].
  intros Hn. rewrite filter_cons. simpl.
  rewrite decide_False by set_solver. apply IH. set_solver.
Qed.




End run_facts.

(** * Registration *)

Section registration.
Import DependencyGraph TriggerController RunSpec.

Lemma append_to_keys a dep (l : list (string * list string)) :
  dict_keys (append_to a dep l)
  = if decide (a ∈ dict_keys l) then dict_keys l else dict_keys l ++ [a].
Proof.
  unfold dict_keys. induction l as [|[k ds] l IH]; [done|].
  cbn [append_to]. destruct (decide (k = a)) as [->|Hne]; rewrite !fmap_cons.
  - cbn [fst]. rewrite decide_True; [done | set_solver].
  - cbn [fst]. rewrite IH. destruct (decide (a ∈ l.*1)).
    + rewrite decide_True; [done | set_solver].
    + rewrite decide_False; [done | set_solver].
Qed.

Lemma add_dependencies_keys g a deps :
  let g' := foldl (λ g dep, add_dependency g a dep) g deps in
  (NoDup (dict_keys (dependencies g)) → NoDup (dict_keys (dependencies g'))) ∧
  (∀ x, x ∈ dict_keys (dependencies g') → x = a ∨ x ∈ dict_keys (dependencies g)).
Proof.
  revert g. induction deps as [|dep deps IH]; intros g; simpl; [by auto|].
  destruct (IH (add_dependency g a dep)) as [IHnd IHin].
  assert (dict_keys (dependencies (add_dependency g a dep))
          = if decide (a ∈ dict_keys (dependencies g)) then dict_keys (dependencies g)
            else dict_keys (dependencies g) ++ [a]) as Hkeys
    by apply append_to_keys.
  split.
  - intros Hnd. apply IHnd. rewrite Hkeys. case_decide; [done|].
    apply NoDup_app. split_and!; [done| |apply NoDup_singleton].
    intros x Hx ->%list_elem_of_singleton. done.
  - intros x Hx. destruct (IHin x Hx) as [?|Hin]; [by left|].
    rewrite Hkeys in Hin. case_decide; set_solver.
Qed.

Lemma register_agent_registered tc now a deps :
  registered tc → registered (register_agent tc now a deps).
Proof.
  intros [Hcb Hst Hkeys Hgr].
  destruct (add_dependencies_keys (dependency_graph tc) a deps) as [Hnd Hin].
  assert (∀ x, x ∈ set_callback a (agent_callbacks tc)
               ↔ x = a ∨ x ∈ agent_callbacks tc) as Hset.
  { intros x. unfold set_callback. case_decide; set_solver. }
  split; simpl.
  - unfold set_callback. case_decide; [done|].
    apply NoDup_app. split_and!; [done| |apply NoDup_singleton].
    intros x Hx ->%list_elem_of_singleton. done.
  - intros x. rewrite Hset. destruct (decide (a = x)) as [->|Hne].
    + rewrite lookup_insert_eq. split; [by eexists | by left].
    + rewrite lookup_insert_ne by done. rewrite <- Hst. set_solver.
  - by apply Hnd.
  - intros x Hx. apply Hset. destruct (Hin x Hx); [by left | right; by apply Hgr].
Qed.

Lemma register_agent_pending tc now a deps :
  all_pending tc → all_pending (register_agent tc now a deps).
Proof.
  intros Hp x st. simpl. destruct (decide (a = x)) as [->|Hne].
  - rewrite lookup_insert_eq. by intros [= <-].
  - rewrite lookup_insert_ne by done. apply Hp.
Qed.

Lemma register_agent_fresh tc now a deps :
  fresh tc → fresh (register_agent tc now a deps).
Proof.
  intros [??]. split; [by apply register_agent_registered
                      | by apply register_agent_pending].
Qed.

Lemma init_fresh cm : fresh (TriggerController.init cm DependencyGraph.init).
Proof.
  split; [split|]; unfold all_pending; cbn.
  - constructor.
  - intros a. split; [by intros ?%elem_of_nil|]. intros [st Hst].
    by apply lookup_empty_Some in Hst.
  - constructor.
  - by intros a ?%elem_of_nil.
  - intros a st Hst. by apply lookup_empty_Some in Hst.
Qed.

Lemma register_agents_fresh tc clock :
  fresh tc → fresh (ProposalEngine._register_agents tc clock).
Proof.
  intros Hf. unfold ProposalEngine._register_agents.
  by repeat apply register_agent_fresh.
Qed.
End registration.

(** * The concrete runs *)

Section concrete.
Import DependencyGraph TriggerController Run RunSpec Examples.

(** A step of a concrete run: the side condition is computed. *)
Local Ltac by_step lem := refine (lem _); vm_compute; reflexivity.

Lemma empty_controller_fresh : fresh empty_controller.
Proof. apply init_fresh. Qed.

Lemma cycle_controller_fresh : fresh cycle_controller.
Proof. unfold cycle_controller. repeat apply register_agent_fresh. apply init_fresh. Qed.

Lemma diamond_controller_fresh : fresh diamond_controller.
Proof. unfold diamond_controller. repeat apply register_agent_fresh. apply init_fresh. Qed.











Lemma chain_root_started_reachable : reachable chain_controller chain_root_started.
Proof.
  apply rtc_once.
  by_step (step_begin (run_all chain_controller) [] (mk_task "root" true) []).
Qed.

Lemma chain_root_done_reachable : reachable chain_controller chain_root_done.
Proof.
  eapply rtc_r; [apply chain_root_started_reachable|].
  by_step (step_resume chain_root_started [] (mk_task "root" true) [] 1 (returns "R")).
Qed.

Lemma chain_mid_started_step : step chain_root_done chain_mid_started.
Proof. by_step (step_begin chain_root_done [] (mk_task "mid" false) []). Qed.

Lemma chain_returned_reachable : reachable chain_controller chain_returned.
Proof.
  eapply rtc_r; [eapply rtc_r; [apply chain_root_done_reachable|]|].
  - apply chain_mid_started_step.
  - apply step_return.
    + vm_compute. reflexivity.
    + intros tk.
      assert (ready chain_mid_started ++ awaiting chain_mid_started
              = [mk_task "mid" false]) as -> by (vm_compute; reflexivity).
      by intros ->%list_elem_of_singleton.
    + intros tk msg.
      assert (escaped chain_mid_started = []) as -> by (vm_compute; reflexivity).
      by intros ?%elem_of_nil.
Qed.

End concrete.

(** * A second run without reset *)

Section rerun_concrete.
Import DependencyGraph TriggerController Run RunSpec Examples Reruns.

Local Ltac by_step lem := refine (lem _); vm_compute; reflexivity.














Lemma rerun_mid_failed_step : step rerun_mid_first rerun_mid_failed.
Proof.
  by_step (step_resume rerun_mid_first [mk_task "root" true] (mk_task "mid" true) []
             4 (Raised "boom")).
Qed.




Lemma rerun_mid_needs_root :
  deps_of (dependency_graph rerun_controller) "mid" = ["root"].
Proof. vm_compute. reflexivity. Qed.

End rerun_concrete.

(** * The cycle check on a chain deeper than the interpreter allows *)

Section deep_chain.
Import DependencyGraph DeepChain.

Lemma unit_name_inj i j : unit_name i = unit_name j → i = j.
Proof. unfold unit_name. apply (inj pretty). Qed.



Lemma append_to_new a dep (d : list (string * list string)) :
  a ∉ dict_keys d → append_to a dep d = d ++ [(a, [dep])].
Proof.
  induction d as [|[k deps] d IH]; intros Hnew; [done|].
  cbn [append_to]. unfold dict_keys in Hnew. rewrite fmap_cons in Hnew.
  apply not_elem_of_cons in Hnew as [Hne Hnew]. simpl in Hne.
  rewrite decide_False by done. by rewrite IH.
Qed.

Lemma chain_keys n : dict_keys (dependencies (chain_graph n)) = unit_name <$> seq 0 n.
Proof.
  unfold dict_keys, chain_graph. simpl. generalize 0.
  induction n as [|n IH]; intros start; simpl; [done|]. by rewrite IH.
Qed.

(** The chain is what its [n] calls of [add_dependency] leave. *)
Lemma add_chain_graph n : add_chain n = chain_graph n.
Proof.
  unfold add_chain. induction n as [|n IH]; [done|].
  rewrite seq_S, foldl_app, IH. cbn [foldl]. unfold add_dependency. f_equal.
  rewrite append_to_new.
  - unfold chain_graph. cbn [dependencies]. by rewrite seq_S, map_app.
  - rewrite chain_keys. intros (i & Hi%unit_name_inj & Hin%elem_of_seq)%list_elem_of_fmap.
    lia.
Qed.





End deep_chain.

(** * The claims *)

Section claims.
Import DependencyGraph TriggerController Run RunSpec Examples.

Lemma run_all_static tc :
  dependency_graph (ctl (run_all tc)) = dependency_graph tc ∧
  agent_callbacks (ctl (run_all tc)) = agent_callbacks tc.
Proof. unfold run_all, run_all_begin. by destruct (has_circular_dependency _). Qed.

Lemma reachable_graph tc s :
  reachable tc s → dependency_graph (ctl s) = dependency_graph tc.
Proof.
  intros Hr. apply steps_static in Hr as [-> _]. apply run_all_static.
Qed.

End claims.

Import DependencyGraph TriggerController Run RunSpec Examples Reruns.




(** C2 (the code departs from it). In the chain [root], [mid], [leaf],
    [run_all] can return once [root] is done: the task of [mid], created
    by [_trigger_dependents], is not among the tasks it awaits.  At that
    point [mid] is still in flight and [leaf] has not run. *)
Theorem C2_run_all_returns_with_task_outstanding :
  reachable chain_controller chain_returned ∧
  returned chain_returned = Some ReturnedNormally ∧
  outstanding chain_returned = [mk_task "mid" false] ∧
  state <$> agent_status (ctl chain_returned) !! "mid" = Some "pending" ∧
  eligible (ctl chain_returned) "mid" ∧
  launches chain_returned "leaf" = 0.
Proof.
  split; [apply chain_returned_reachable|].
  split_and!; try (vm_compute; reflexivity).
  split; [|vm_compute; reflexivity].
  eexists. split; [vm_compute; reflexivity | reflexivity].
Qed.

(** C3 (as amended). On a launch, [execute_agent] passes the callback the
    step context stored for the unit: the one already stored if there is
    one, which is not rebuilt; otherwise the one [initialize_step_context]
    builds at that moment from the current master context and the fixed
    table of [base_context], which it stores. *)
Theorem C3_launch_passes_stored_context tc a tc' input_context :
  execute_agent_begin tc a = Suspended tc' input_context →
  input_context
    = default (ContextManager.base_context (context_manager tc) a)
              (ContextManager.step_contexts (context_manager tc) !! a) ∧
  ContextManager.step_contexts (context_manager tc') !! a = Some input_context ∧
  ContextManager.master_context (context_manager tc')
    = ContextManager.master_context (context_manager tc).
Proof.
  unfold execute_agent_begin. destruct (negb _); [done|]. simpl.
  case_decide; [|unfold on_exception; simpl; by destruct (agent_status tc !! a)].
  intros [= <- <-]. unfold ContextManager.initialize_step_context,
    ContextManager.get_step_context.
  destruct (ContextManager.step_contexts (context_manager tc) !! a) as [ctx|] eqn:Hctx;
    simpl.
  - by rewrite Hctx.
  - by rewrite lookup_insert_eq.
Qed.

Lemma scope_relaunch_input :
  input_of (execute_agent_begin scope_relaunch_controller "scope_agent")
    ≫= (λ i, i !! "client_info") = Some (PStr "Acme").
Proof. vm_compute. reflexivity. Qed.

Lemma scope_relaunch_base :
  ContextManager.base_context (context_manager scope_relaunch_controller)
    "scope_agent" !! "client_info" = Some (PStr "Bolt").
Proof. vm_compute. reflexivity. Qed.

Lemma value_proposition_input :
  map_to_list <$>
    input_of (execute_agent_begin engine_scope_done "value_proposition_agent")
  = Some [("client_info", PDict []); ("engagement_details", PDict []);
          ("proposal_needs", PDict [])].
Proof. vm_compute. reflexivity. Qed.

Lemma engine_scope_done_status :
  agent_status engine_scope_done !! "scope_agent"
  = Some (mk_status "completed" 0 1 (PStr "S") None).
Proof. vm_compute. reflexivity. Qed.

Lemma engine_value_proposition_deps :
  deps_of (dependency_graph engine_scope_done) "value_proposition_agent"
  = ["scope_agent"].
Proof. vm_compute. reflexivity. Qed.

Lemma C3_launch_passes_stored_context_witness :
  ∃ tc' input_context,
    execute_agent_begin scope_relaunch_controller "scope_agent"
      = Suspended tc' input_context ∧
    input_context
      = default (ContextManager.base_context
                   (context_manager scope_relaunch_controller) "scope_agent")
                (ContextManager.step_contexts
                   (context_manager scope_relaunch_controller) !! "scope_agent").
Proof.
  pose proof scope_relaunch_input as Hin.
  destruct (execute_agent_begin scope_relaunch_controller "scope_agent")
    as [tc' names|tc' input_context|tc' msg] eqn:Hrun;
    [discriminate Hin| |discriminate Hin].
  exists tc', input_context. split; [reflexivity|].
  exact (proj1 (C3_launch_passes_stored_context _ _ _ _ Hrun)).
Defined.

(** C3 as stated fails in two ways.  A unit launched again after the
    master context changed is given the context built at its first launch;
    and the context built for [value_proposition_agent], which the engine
    registers with the prerequisite [scope_agent], does not hold the
    output recorded for [scope_agent]. *)
Lemma C3_counterexample :
  (∃ tc' input_context,
     execute_agent_begin scope_relaunch_controller "scope_agent"
       = Suspended tc' input_context ∧
     ¬ rebuilt_at_launch scope_relaunch_controller "scope_agent" input_context) ∧
  (∃ tc' input_context,
     execute_agent_begin engine_scope_done "value_proposition_agent"
       = Suspended tc' input_context ∧
     ¬ rebuilt_at_launch engine_scope_done "value_proposition_agent" input_context).
Proof.
  split.
  - pose proof scope_relaunch_input as Hin.
    destruct (execute_agent_begin scope_relaunch_controller "scope_agent")
      as [tc' names|tc' input_context|tc' msg];
      [discriminate Hin| |discriminate Hin].
    exists tc', input_context. split; [reflexivity|]. intros [Heq _].
    simpl in Hin. rewrite Heq, scope_relaunch_base in Hin. discriminate Hin.
  - pose proof value_proposition_input as Hin.
    destruct (execute_agent_begin engine_scope_done "value_proposition_agent")
      as [tc' names|tc' input_context|tc' msg];
      [discriminate Hin| |discriminate Hin].
    exists tc', input_context. split; [reflexivity|]. intros [_ Hout].
    assert ("scope_agent" ∈ deps_of (dependency_graph engine_scope_done)
                              "value_proposition_agent") as Hdep.
    { rewrite engine_value_proposition_deps. apply list_elem_of_here. }
    destruct (Hout _ _ Hdep engine_scope_done_status) as [key Hkey].
    apply elem_of_map_to_list in Hkey. simpl in Hin, Hkey.
    injection Hin as Hin. rewrite Hin in Hkey.
    repeat (apply elem_of_cons in Hkey as [Hkey|Hkey]; [discriminate Hkey|]).
    by apply elem_of_nil in Hkey.
Qed.

(** ** Versions of the contexts *)

Lemma update_step_context_version cm now a new_data :
  ContextManager.get_context_version
    (ContextManager.update_step_context cm now a new_data) a
  = (ContextManager.get_context_version cm a + 1)%Z.
Proof.
  unfold ContextManager.get_context_version, ContextManager.update_step_context,
    ContextManager._log_context_update, ContextManager.versions_getitem.
  destruct (ContextManager.context_versions cm !! a) as [v|] eqn:Hv; simpl;
    rewrite lookup_insert_eq; simpl; by rewrite lookup_insert_eq.
Qed.

Lemma update_step_context_version_other cm now a b new_data :
  a ≠ b →
  ContextManager.get_context_version
    (ContextManager.update_step_context cm now a new_data) b
  = ContextManager.get_context_version cm b.
Proof.
  intros Hne.
  unfold ContextManager.get_context_version, ContextManager.update_step_context,
    ContextManager._log_context_update, ContextManager.versions_getitem.
  destruct (ContextManager.context_versions cm !! a) as [v|] eqn:Hv; simpl;
    rewrite lookup_insert_eq; simpl; by rewrite !lookup_insert_ne.
Qed.

Lemma log_context_update_version cm now name upd b :
  ContextManager.get_context_version
    (ContextManager._log_context_update cm now name upd) b
  = ContextManager.get_context_version cm b.
Proof.
  unfold ContextManager.get_context_version, ContextManager._log_context_update,
    ContextManager.versions_getitem.
  destruct (ContextManager.context_versions cm !! name) as [v|] eqn:Hv; simpl;
    [done|].
  destruct (decide (name = b)) as [<-|Hne].
  - by rewrite lookup_insert_eq, Hv.
  - by rewrite lookup_insert_ne.
Qed.

(** C4 (the code departs from it). [update_step_context] adds one to the
    version of the step context it updates, but [update_master_context]
    leaves every version as it is: the version read for [master_context]
    is [0] before and after any number of updates of the master context. *)
Theorem C4_master_version_not_incremented :
  (∀ cm now new_data name,
     ContextManager.get_context_version
       (ContextManager.update_master_context cm now new_data) name
     = ContextManager.get_context_version cm name) ∧
  ContextManager.get_context_version
    (ContextManager.update_master_context ContextManager.init 0
       {["client_info" := PStr "Acme"]}) "master_context" = 0%Z ∧
  (∀ cm now a new_data,
     ContextManager.get_context_version
       (ContextManager.update_step_context cm now a new_data) a
     = (ContextManager.get_context_version cm a + 1)%Z).
Proof.
  split_and!.
  - intros. unfold ContextManager.update_master_context.
    by rewrite log_context_update_version.
  - vm_compute. reflexivity.
  - apply update_step_context_version.
Qed.















(** C9. The recovery puts back the master context and the step contexts
    of the recovery point, whatever the run made of them, and leaves every
    registered unit with the status [pending], no output and no error. *)
Theorem C9_recovery_restores_snapshot tc0 tc1 :
  let tc2 := ProposalEngine._recover_from_error tc1
               (ProposalEngine._create_recovery_point tc0) in
  ContextManager.master_context (context_manager tc2)
    = ContextManager.master_context (context_manager tc0) ∧
  ContextManager.step_contexts (context_manager tc2)
    = ContextManager.step_contexts (context_manager tc0) ∧
  dom (agent_status tc2) = dom (agent_status tc1) ∧
  ∀ a st, agent_status tc2 !! a = Some st →
    state st = "pending" ∧ output st = PNone ∧ error st = None.
Proof.
  simpl. split_and!; [done..|apply dom_fmap_L|].
  intros a st. rewrite lookup_fmap.
  destruct (agent_status tc1 !! a); [|done]. by intros [= <-].
Qed.

Lemma engine_recovered_registered :
  is_Some (agent_status engine_recovered !! "scope_agent").
Proof. vm_compute. by eexists. Qed.

Lemma C9_recovery_restores_snapshot_witness :
  ContextManager.step_contexts (context_manager engine_recovered)
    = ContextManager.step_contexts (context_manager engine_controller) ∧
  state <$> agent_status engine_recovered !! "scope_agent" = Some "pending".
Proof.
  destruct (C9_recovery_restores_snapshot engine_controller engine_scope_done)
    as (_ & Hsteps & _ & Hstatus).
  split; [exact Hsteps|].
  destruct engine_recovered_registered as [st Hst].
  fold engine_recovered in Hstatus. rewrite Hst. simpl. f_equal.
  exact (proj1 (Hstatus _ _ Hst)).
Defined.

(** C10 (as amended). The queries answer with a default where nothing is
    recorded: the empty dictionary for an agent without a step context,
    version [0] for an agent without a version counter, no dependent for a
    unit that occurs in no list of prerequisites, and [True] for a unit
    with no prerequisite, whatever the statuses are. *)
Theorem C10_queries_default cm g a sts :
  (ContextManager.step_contexts cm !! a = None →
     ContextManager.get_step_context cm a = ∅) ∧
  (ContextManager.context_versions cm !! a = None →
     ContextManager.get_context_version cm a = 0%Z) ∧
  ((∀ k ds, (k, ds) ∈ dependencies g → a ∉ ds) → get_dependents g a = []) ∧
  (deps_of g a = [] → check_dependencies_met g a sts = true).
Proof.
  split_and!.
  - intros H. unfold ContextManager.get_step_context. by rewrite H.
  - intros H. unfold ContextManager.get_context_version. by rewrite H.
  - intros H. unfold get_dependents.
    induction (dependencies g) as [|[k ds] l IH]; [done|].
    rewrite filter_cons. simpl. rewrite decide_False.
    + apply IH. intros k' ds' Hin. apply (H k' ds'). by right.
    + apply (H k ds). by left.
  - intros H. unfold check_dependencies_met. by rewrite H.
Qed.

Lemma C10_queries_default_witness :
  ContextManager.get_step_context ContextManager.init "nobody" = ∅ ∧
  ContextManager.get_context_version ContextManager.init "nobody" = 0%Z ∧
  get_dependents (dependency_graph diamond_controller) "D" = [] ∧
  check_dependencies_met (dependency_graph diamond_controller) "C" ∅ = true.
Proof.
  split_and!.
  - apply (C10_queries_default ContextManager.init DependencyGraph.init "nobody" ∅).
    reflexivity.
  - apply (C10_queries_default ContextManager.init DependencyGraph.init "nobody" ∅).
    reflexivity.
  - apply (C10_queries_default ContextManager.init
             (dependency_graph diamond_controller) "D" ∅).
    intros k ds Hin.
    assert (dependencies (dependency_graph diamond_controller)
            = [("A", ["C"]); ("B", ["C"]); ("D", ["A"; "B"])]) as Hg
      by (vm_compute; reflexivity).
    rewrite Hg in Hin.
    repeat (apply elem_of_cons in Hin as [[= -> ->]|Hin]; [set_solver|]).
    by apply elem_of_nil in Hin.
  - apply (C10_queries_default ContextManager.init
             (dependency_graph diamond_controller) "C" ∅).
    vm_compute. reflexivity.
Defined.

(** C10 as stated fails for the version: after a run in which
    [scope_agent] completed and the recovery that follows, [scope_agent]
    has no step context, and its version is [1]. *)
Lemma C10_counterexample :
  ContextManager.step_contexts (context_manager engine_recovered) !! "scope_agent"
    = None ∧
  ContextManager.get_step_context (context_manager engine_recovered) "scope_agent"
    = ∅ ∧
  ContextManager.get_context_version (context_manager engine_recovered) "scope_agent"
    = 1%Z.
Proof. split_and!; vm_compute; reflexivity. Qed.

(** * Properties beyond the claims *)

(** * Further properties of the dependency graph *)

Section graph_facts.
Import DependencyGraph.

Lemma deps_of_add_dependency g a dep b :
  deps_of (add_dependency g a dep) b
  = if decide (a = b) then deps_of g b ++ [dep] else deps_of g b.
Proof.
  unfold deps_of, add_dependency. destruct g as [l]. simpl.
  induction l as [|[k ds] l IH]; cbn [append_to dict_get].
  - by destruct (decide (a = b)).
  - destruct (decide (k = a)) as [->|Hka]; cbn [dict_get].
    + by destruct (decide (a = b)).
    + destruct (decide (k = b)) as [->|Hkb]; [|done].
      by rewrite decide_False by done.
Qed.

Lemma edge_add_dependency g a dep x y :
  edge (add_dependency g a dep) x y ↔ edge g x y ∨ (x = a ∧ y = dep).
Proof.
  unfold edge. rewrite deps_of_add_dependency.
  case_decide; [subst; rewrite elem_of_app, list_elem_of_singleton|]; naive_solver.
Qed.

Lemma tc_mono {A} (R R' : relation A) x y :
  (∀ x y, R x y → R' x y) → tc R x y → tc R' x y.
Proof. intros H. induction 1; [apply tc_once | eapply tc_l]; eauto. Qed.

Lemma has_cycle_mono g g' :
  (∀ x y, edge g x y → edge g' x y) → has_cycle g → has_cycle g'.
Proof. intros H [a Ha]. exists a. by eapply tc_mono. Qed.

Lemma dependent_iff g a d :
  NoDup (dict_keys (dependencies g)) →
  d ∈ get_dependents g a ↔ a ∈ deps_of g d.
Proof.
  intros Hnd. split; [intros Hd; by apply (get_dependents_spec g a d Hnd)|].
  intros Ha. unfold deps_of in Ha.
  destruct (dict_get d (dependencies g)) as [ds|] eqn:Hget;
    [|by apply elem_of_nil in Ha].
  simpl in Ha. unfold get_dependents. apply list_elem_of_fmap.
  exists (d, ds). split; [done|]. apply list_elem_of_filter. split; [done|].
  clear Hnd. induction (dependencies g) as [|[k ds'] l IH]; simpl in Hget; [done|].
  destruct (decide (k = d)) as [->|Hne]; simplify_eq; [by left | right; auto].
Qed.

Lemma get_dependents_sublist g a :
  get_dependents g a `sublist_of` dict_keys (dependencies g).
Proof.
  unfold get_dependents, dict_keys. induction (dependencies g) as [|kv l IH];
    [done|].
  rewrite filter_cons. case_decide; simpl.
  - by apply sublist_skip.
  - by apply sublist_cons.
Qed.
End graph_facts.

Section extra_graph.
Import DependencyGraph.

(** X1. [add_dependency] appends the prerequisite to the end of the list
    of the agent, whether the agent was known or not, and changes the
    list of no other agent. *)
Theorem X1_add_dependency_appends g a dep b :
  deps_of (add_dependency g a dep) b
  = if decide (a = b) then deps_of g b ++ [dep] else deps_of g b.
Proof. apply deps_of_add_dependency. Qed.

(** X2. [get_dependents] is the converse of the prerequisite lists: the
    dependents of [a] are exactly the agents that list [a], each once, in
    the order of their first registration. *)
Theorem X2_get_dependents_converse g a :
  NoDup (dict_keys (dependencies g)) →
  (∀ d, d ∈ get_dependents g a ↔ a ∈ deps_of g d) ∧
  NoDup (get_dependents g a) ∧
  get_dependents g a `sublist_of` dict_keys (dependencies g).
Proof.
  intros Hnd. split_and!.
  - intros d. by apply dependent_iff.
  - by apply get_dependents_NoDup.
  - apply get_dependents_sublist.
Qed.

(** X3. Listing a prerequisite a second time changes neither the answer
    of [check_dependencies_met] for any agent nor the answer of the cycle
    check. *)
Theorem X3_duplicate_prerequisite_harmless g a dep b sts :
  dep ∈ deps_of g a →
  check_dependencies_met (add_dependency g a dep) b sts
    = check_dependencies_met g b sts ∧
  has_circular_dependency (add_dependency g a dep) = has_circular_dependency g.
Proof.
  intros Hdep. split.
  - unfold check_dependencies_met. rewrite deps_of_add_dependency.
    case_decide as Hab; [subst b|done].
    rewrite forallb_app. simpl. rewrite andb_true_r.
    destruct (forallb _ (deps_of g a)) eqn:Hall; [|done]. simpl.
    rewrite forallb_forall in Hall. apply Hall. by apply list_elem_of_In.
  - assert (has_cycle (add_dependency g a dep) ↔ has_cycle g) as Hiff.
    { split; apply has_cycle_mono; intros x y; rewrite edge_add_dependency.
      - intros [?|[-> ->]]; done.
      - by left. }
    rewrite <- !has_circular_dependency_spec in Hiff.
    destruct (has_circular_dependency _), (has_circular_dependency g);
      try done; [symmetry; by apply Hiff | by apply Hiff].
Qed.


End extra_graph.

(** * Further properties of the context manager *)

Section context_facts.
Import ContextManager ContextCalls.
Implicit Types (cm : ContextManager.t) (a b : string).

Lemma log_context_update_history cm now name upd :
  context_history (_log_context_update cm now name upd)
  = context_history cm ++ [mk_entry now name upd (get_context_version cm name)].
Proof.
  unfold _log_context_update, versions_getitem, get_context_version.
  by destruct (context_versions cm !! name).
Qed.

Lemma history_with_master_length cm m :
  length (history_with_master cm m) = length (context_history cm).
Proof.
  unfold history_with_master. destruct (master_record cm); [apply length_alter|done].
Qed.

Lemma log_context_update_contexts cm now name upd :
  master_context (_log_context_update cm now name upd) = master_context cm ∧
  step_contexts (_log_context_update cm now name upd) = step_contexts cm.
Proof.
  unfold _log_context_update, versions_getitem.
  by destruct (context_versions cm !! name).
Qed.

Lemma update_step_context_contexts cm now a new_data :
  master_context (update_step_context cm now a new_data) = master_context cm ∧
  step_contexts (update_step_context cm now a new_data)
  = <[a := new_data ∪ get_step_context cm a]> (step_contexts cm).
Proof.
  unfold update_step_context, get_step_context.
  destruct (versions_getitem a (context_versions cm)) as [v vs].
  by destruct (log_context_update_contexts
                 (mk (master_context cm)
                     (<[a:=new_data ∪ default ∅ (step_contexts cm !! a)]>
                        (step_contexts cm))
                     (<[a:=(v + 1)%Z]> vs) (context_history cm) (master_record cm))
                 now a new_data) as [-> ->].
Qed.

Lemma get_step_context_update cm now a new_data key :
  get_step_context (update_step_context cm now a new_data) a !! key
  = match new_data !! key with
    | Some v => Some v
    | None => get_step_context cm a !! key
    end.
Proof.
  destruct (update_step_context_contexts cm now a new_data) as [_ Hs].
  unfold get_step_context at 1. rewrite Hs, lookup_insert_eq. simpl.
  destruct (new_data !! key) as [v|] eqn:Hk.
  - by apply lookup_union_Some_l.
  - by rewrite lookup_union_r.
Qed.

Lemma update_step_context_history cm now a new_data :
  context_history (update_step_context cm now a new_data)
  = context_history cm
    ++ [mk_entry now a new_data (get_context_version cm a + 1)].
Proof.
  pose proof (update_step_context_version cm now a new_data) as Hv.
  unfold update_step_context in *.
  destruct (versions_getitem a (context_versions cm)) as [v vs] eqn:Hget.
  rewrite log_context_update_history. simpl. do 3 f_equal.
  rewrite log_context_update_version in Hv. rewrite <- Hv.
  unfold get_context_version. simpl. by rewrite lookup_insert_eq.
Qed.

Lemma initialize_step_context_version cm a b :
  get_context_version (initialize_step_context cm a) b = get_context_version cm b.
Proof.
  unfold initialize_step_context. by destruct (step_contexts cm !! a).
Qed.

Lemma initialize_step_context_some cm a :
  is_Some (step_contexts (initialize_step_context cm a) !! a).
Proof.
  unfold initialize_step_context.
  destruct (step_contexts cm !! a) as [ctx|] eqn:Hctx; simpl.
  - by rewrite Hctx.
  - by rewrite lookup_insert_eq.
Qed.



Lemma apply_call_version cm c a :
  get_context_version (apply_call cm c) a
  = (get_context_version cm a + if is_step_update a c then 1 else 0)%Z.
Proof.
  destruct c as [now d|now d|b|now b d]; simpl.
  - unfold initialize_master_context. rewrite log_context_update_version.
    unfold get_context_version. simpl. lia.
  - unfold update_master_context. rewrite log_context_update_version.
    unfold get_context_version. simpl. lia.
  - rewrite initialize_step_context_version. lia.
  - case_bool_decide as Hb.
    + subst. apply update_step_context_version.
    + rewrite update_step_context_version_other by done. lia.
Qed.

Lemma apply_call_history cm c :
  length (context_history (apply_call cm c))
  = length (context_history cm) + if is_logged c then 1 else 0.
Proof.
  destruct c as [now d|now d|b|now b d]; simpl.
  - unfold initialize_master_context. rewrite log_context_update_history.
    rewrite length_app. simpl. lia.
  - unfold update_master_context. rewrite log_context_update_history.
    rewrite length_app. simpl. rewrite history_with_master_length. lia.
  - unfold initialize_step_context. destruct (step_contexts cm !! b); simpl; lia.
  - rewrite update_step_context_history, length_app. simpl. lia.
Qed.

Lemma apply_call_appends cm c :
  drop (length (context_history cm)) (context_history (apply_call cm c))
  = record_of cm c.
Proof.
  destruct c as [now d|now d|b|now b d]; simpl.
  - unfold initialize_master_context. rewrite log_context_update_history. simpl.
    apply drop_app_length.
  - unfold update_master_context. rewrite log_context_update_history. simpl.
    rewrite <- (history_with_master_length cm (d ∪ master_context cm)) at 1.
    apply drop_app_length.
  - unfold initialize_step_context.
    destruct (step_contexts cm !! b); simpl; apply drop_all.
  - rewrite update_step_context_history. apply drop_app_length.
Qed.

Lemma history_with_master_lookup cm m i e :
  context_history cm !! i = Some e →
  history_with_master cm m !! i
  = Some (if bool_decide (master_record cm = Some i) then with_update m e else e).
Proof.
  intros He. unfold history_with_master.
  destruct (master_record cm) as [j|]; [|done].
  destruct (decide (j = i)) as [->|Hne].
  - by rewrite list_lookup_alter_eq, He, bool_decide_eq_true_2.
  - rewrite list_lookup_alter_ne by done.
    rewrite bool_decide_eq_false_2; [done|]. by intros [= ?].
Qed.

Lemma apply_call_earlier cm c i e :
  context_history cm !! i = Some e →
  context_history (apply_call cm c) !! i
  = Some (if is_master_update c && bool_decide (master_record cm = Some i)
          then with_update (master_context (apply_call cm c)) e else e).
Proof.
  intros He. pose proof (lookup_lt_Some _ _ _ He) as Hlt.
  destruct c as [now d|now d|b|now b d]; simpl.
  - unfold initialize_master_context. rewrite log_context_update_history. simpl.
    by rewrite lookup_app_l.
  - unfold update_master_context at 1. rewrite log_context_update_history. simpl.
    rewrite lookup_app_l by (by rewrite history_with_master_length).
    rewrite (history_with_master_lookup _ _ _ _ He).
    unfold update_master_context.
    by destruct (log_context_update_contexts
                   (mk (d ∪ master_context cm) (step_contexts cm)
                       (context_versions cm)
                       (history_with_master cm (d ∪ master_context cm))
                       (master_record cm))
                   now "master_context" d) as [-> _].
  - unfold initialize_step_context. by destruct (step_contexts cm !! b).
  - rewrite update_step_context_history. by rewrite lookup_app_l.
Qed.

Lemma log_context_update_master_record cm now name upd :
  master_record (_log_context_update cm now name upd) = master_record cm.
Proof.
  unfold _log_context_update, versions_getitem.
  by destruct (context_versions cm !! name).
Qed.

Lemma apply_call_master_record cm c :
  master_record (apply_call cm c)
  = match c with
    | InitializeMaster _ _ => Some (length (context_history cm))
    | _ => master_record cm
    end.
Proof.
  destruct c as [now d|now d|b|now b d]; simpl.
  - unfold initialize_master_context. by rewrite log_context_update_master_record.
  - unfold update_master_context. by rewrite log_context_update_master_record.
  - unfold initialize_step_context. by destruct (step_contexts cm !! b).
  - unfold update_step_context.
    destruct (versions_getitem b (context_versions cm)) as [v vs].
    by rewrite log_context_update_master_record.
Qed.

Lemma apply_call_shows_master cm c :
  master_record_shows_master cm → master_record_shows_master (apply_call cm c).
Proof.
  intros Hq i. rewrite apply_call_master_record.
  destruct c as [now d|now d|b|now b d].
  - intros [= <-]. simpl. unfold initialize_master_context.
    rewrite log_context_update_history. simpl.
    rewrite lookup_app_r by done. rewrite Nat.sub_diag. simpl.
    by destruct (log_context_update_contexts
                   (mk d (step_contexts cm) (context_versions cm) (context_history cm)
                       (Some (length (context_history cm))))
                   now "master_context" d) as [-> _].
  - intros Hi. specialize (Hq i Hi).
    destruct (context_history cm !! i) as [e|] eqn:He; [|done].
    rewrite (apply_call_earlier _ _ _ _ He). simpl.
    by rewrite bool_decide_eq_true_2.
  - intros Hi. specialize (Hq i Hi).
    destruct (context_history cm !! i) as [e|] eqn:He; [|done].
    rewrite (apply_call_earlier _ _ _ _ He). simpl.
    unfold initialize_step_context. by destruct (step_contexts cm !! b).
  - intros Hi. specialize (Hq i Hi).
    destruct (context_history cm !! i) as [e|] eqn:He; [|done].
    rewrite (apply_call_earlier _ _ _ _ He). simpl.
    by destruct (update_step_context_contexts cm now b d) as [-> _].
Qed.

Lemma apply_call_follow cm c :
  versions_follow_contexts cm → versions_follow_contexts (apply_call cm c).
Proof.
  intros Hq a. rewrite apply_call_version.
  destruct c as [now d|now d|b|now b d]; simpl.
  - unfold initialize_master_context.
    destruct (log_context_update_contexts
                (mk d (step_contexts cm) (context_versions cm) (context_history cm)
                    (Some (length (context_history cm))))
                now "master_context" d) as [_ ->].
    simpl. intros Ha. rewrite (Hq a Ha). lia.
  - unfold update_master_context.
    destruct (log_context_update_contexts
                (mk (d ∪ master_context cm) (step_contexts cm) (context_versions cm)
                    (history_with_master cm (d ∪ master_context cm))
                    (master_record cm))
                now "master_context" d) as [_ ->].
    simpl. intros Ha. rewrite (Hq a Ha). lia.
  - unfold initialize_step_context.
    destruct (step_contexts cm !! b) eqn:Hb; simpl.
    + intros Ha. rewrite (Hq a Ha). lia.
    + destruct (decide (b = a)) as [->|Hne].
      * by rewrite lookup_insert_eq.
      * rewrite lookup_insert_ne by done. intros Ha. rewrite (Hq a Ha). lia.
  - destruct (update_step_context_contexts cm now b d) as [_ ->].
    destruct (decide (b = a)) as [->|Hne].
    + by rewrite lookup_insert_eq.
    + rewrite lookup_insert_ne by done. rewrite bool_decide_eq_false_2 by done.
      intros Ha. rewrite (Hq a Ha). lia.
Qed.
End context_facts.

Section extra_context.
Import ContextManager ContextCalls.

(** X6. The history only grows: a call appends its record, and
    [initialize_step_context] none, and the records written before keep
    their place, their timestamp, their context name and their version.
    Their [update] is kept as well, with one exception: the record written
    by [initialize_master_context] holds the dictionary of the master
    context itself, so after [update_master_context] it shows the updated
    master context.  Over any sequence of calls on a new manager, that
    record shows the master context as it is now. *)
Theorem X6_history_append_only :
  (∀ cm c,
     drop (length (context_history cm)) (context_history (apply_call cm c))
     = record_of cm c) ∧
  (∀ cm c i e,
     context_history cm !! i = Some e →
     context_history (apply_call cm c) !! i
     = Some (if is_master_update c && bool_decide (master_record cm = Some i)
             then with_update (master_context (apply_call cm c)) e else e)) ∧
  (∀ cs i,
     master_record (apply_calls init cs) = Some i →
     update <$> context_history (apply_calls init cs) !! i
     = Some (master_context (apply_calls init cs))).
Proof.
  split_and!.
  - apply apply_call_appends.
  - apply apply_call_earlier.
  - intros cs.
    assert (∀ cm, master_record_shows_master cm →
                  master_record_shows_master (apply_calls cm cs)) as H.
    { unfold apply_calls. induction cs as [|c cs IH]; intros cm Hq; simpl; [done|].
      by apply IH, apply_call_shows_master. }
    apply H. by intros i.
Qed.

(** X7. [update_step_context] merges the new entries into the step
    context of the agent, the new value winning on a key present in both,
    creates the step context when there is none, and leaves the step
    contexts of the other agents and the master context as they are. *)
Theorem X7_update_step_context_merges cm now a new_data :
  (∀ key, get_step_context (update_step_context cm now a new_data) a !! key
          = match new_data !! key with
            | Some v => Some v
            | None => get_step_context cm a !! key
            end) ∧
  (∀ b, a ≠ b →
        step_contexts (update_step_context cm now a new_data) !! b
        = step_contexts cm !! b) ∧
  master_context (update_step_context cm now a new_data) = master_context cm.
Proof.
  destruct (update_step_context_contexts cm now a new_data) as [Hm Hs].
  split_and!; [|intros b Hne; by rewrite Hs, lookup_insert_ne|done].
  intros key. apply get_step_context_update.
Qed.

(** X8. [initialize_step_context] is idempotent and silent: a second call
    changes nothing, no call changes a version, the master context or the
    step context of another agent, and after the call the agent has a
    step context. *)
Theorem X8_initialize_step_context_idempotent cm a :
  initialize_step_context (initialize_step_context cm a) a
    = initialize_step_context cm a ∧
  is_Some (step_contexts (initialize_step_context cm a) !! a) ∧
  (∀ b, get_context_version (initialize_step_context cm a) b
        = get_context_version cm b) ∧
  (∀ b, a ≠ b → step_contexts (initialize_step_context cm a) !! b
                = step_contexts cm !! b) ∧
  master_context (initialize_step_context cm a) = master_context cm.
Proof.
  destruct (step_contexts cm !! a) as [ctx|] eqn:Hctx.
  - assert (initialize_step_context cm a = cm) as Heq
      by (unfold initialize_step_context; by rewrite Hctx).
    rewrite !Heq. split_and!; try done; by rewrite Hctx.
  - set (cm' := mk (master_context cm)
                   (<[a:=base_context cm a]> (step_contexts cm))
                   (context_versions cm) (context_history cm) (master_record cm)).
    assert (initialize_step_context cm a = cm') as Heq
      by (unfold initialize_step_context; by rewrite Hctx).
    assert (initialize_step_context cm' a = cm') as Heq'
      by (unfold initialize_step_context, cm'; simpl; by rewrite lookup_insert_eq).
    rewrite !Heq, Heq'. unfold cm'. simpl. split_and!; try done;
      [by rewrite lookup_insert_eq | intros b Hne; by rewrite lookup_insert_ne].
Qed.

(** X9. Over any sequence of calls, the version of an agent grows by the
    number of [update_step_context] calls made for that agent and by
    nothing else, and the history grows by the number of calls other than
    [initialize_step_context]. *)
Theorem X9_version_counts_step_updates cm cs a :
  get_context_version (apply_calls cm cs) a
    = (get_context_version cm a + Z.of_nat (step_updates a cs))%Z ∧
  length (context_history (apply_calls cm cs))
    = length (context_history cm) + logged cs.
Proof.
  unfold apply_calls, step_updates, logged. revert cm.
  induction cs as [|c cs IH]; intros cm; simpl; [split; lia|].
  destruct (IH (apply_call cm c)) as [-> ->].
  rewrite apply_call_version, apply_call_history, !filter_cons.
  destruct (is_step_update a c), (is_logged c); simpl; split; lia.
Qed.

(** X10. As long as a context manager is changed by its own methods only,
    an agent without a step context has version [0]. *)
Theorem X10_no_context_no_version cs a :
  step_contexts (apply_calls init cs) !! a = None →
  get_context_version (apply_calls init cs) a = 0%Z.
Proof.
  assert (∀ cm, versions_follow_contexts cm →
                versions_follow_contexts (apply_calls cm cs)) as H.
  { unfold apply_calls. induction cs as [|c cs IH]; intros cm Hq; simpl; [done|].
    by apply IH, apply_call_follow. }
  apply H. by intros b _.
Qed.

(** X11. [update_master_context] merges the new entries into the master
    context, the new value winning; [initialize_master_context] replaces
    the master context; neither touches a step context. *)
Theorem X11_master_context_updates cm now new_data :
  (∀ key, get_master_context (update_master_context cm now new_data) !! key
          = match new_data !! key with
            | Some v => Some v
            | None => get_master_context cm !! key
            end) ∧
  get_master_context (initialize_master_context cm now new_data) = new_data ∧
  step_contexts (update_master_context cm now new_data) = step_contexts cm ∧
  step_contexts (initialize_master_context cm now new_data) = step_contexts cm.
Proof.
  unfold get_master_context, update_master_context, initialize_master_context.
  split_and!.
  - intros key.
    destruct (log_context_update_contexts
                (mk (new_data ∪ master_context cm) (step_contexts cm)
                    (context_versions cm)
                    (history_with_master cm (new_data ∪ master_context cm))
                    (master_record cm))
                now "master_context" new_data) as [-> _]. simpl.
    destruct (new_data !! key) as [v|] eqn:Hk.
    + by apply lookup_union_Some_l.
    + by rewrite lookup_union_r.
  - by destruct (log_context_update_contexts
                   (mk new_data (step_contexts cm) (context_versions cm)
                       (context_history cm) (Some (length (context_history cm))))
                   now "master_context" new_data) as [-> _].
  - by destruct (log_context_update_contexts
                   (mk (new_data ∪ master_context cm) (step_contexts cm)
                       (context_versions cm)
                       (history_with_master cm (new_data ∪ master_context cm))
                       (master_record cm))
                   now "master_context" new_data) as [_ ->].
  - by destruct (log_context_update_contexts
                   (mk new_data (step_contexts cm) (context_versions cm)
                       (context_history cm) (Some (length (context_history cm))))
                   now "master_context" new_data) as [_ ->].
Qed.
End extra_context.

(** * Further properties of the controller *)

Section controller_facts.
Import DependencyGraph TriggerController Run RunSpec.
Implicit Types (tc : TriggerController.t) (s : Run.t) (a d : string).

Lemma deps_of_add_dependencies g a deps b :
  deps_of (foldl (λ g dep, add_dependency g a dep) g deps) b
  = if decide (a = b) then deps_of g b ++ deps else deps_of g b.
Proof.
  revert g. induction deps as [|dep deps IH]; intros g; simpl.
  - case_decide; [by rewrite app_nil_r | done].
  - rewrite IH, deps_of_add_dependency. case_decide; [|done].
    by rewrite <- app_assoc.
Qed.


Lemma on_exception_domain tc a msg :
  dom (agent_status (controller_of (on_exception tc a msg))) = dom (agent_status tc).
Proof.
  unfold on_exception. destruct (agent_status tc !! a) eqn:Hst; [|done].
  simpl. by apply dom_insert_lookup_L.
Qed.

Lemma execute_agent_begin_domain tc a :
  dom (agent_status (controller_of (execute_agent_begin tc a)))
  = dom (agent_status tc).
Proof.
  unfold execute_agent_begin. destruct (negb _); [done|]. simpl.
  case_decide; [done|].
  by rewrite (on_exception_domain
                (set_context_manager tc
                   (ContextManager.initialize_step_context (context_manager tc) a))).
Qed.

Lemma execute_agent_resume_domain tc now a o :
  dom (agent_status (controller_of (execute_agent_resume tc now a o)))
  = dom (agent_status tc).
Proof.
  unfold execute_agent_resume. destruct o as [result|msg].
  - destruct (dict_get _ _); [|apply on_exception_domain].
    destruct (agent_status tc !! a) eqn:Hst.
    + simpl. by apply dom_insert_lookup_L.
    + unfold on_exception. simpl. by rewrite Hst.
  - apply on_exception_domain.
Qed.

Lemma step_domain s s' :
  step s s' → dom (agent_status (ctl s')) = dom (agent_status (ctl s)).
Proof.
  intros [s0 l1 tk l2 _|s0 l1 tk l2 now o _|s0 _ _ _|s0 tk msg _ _ _]; try done.
  - unfold after_begin.
    pose proof (execute_agent_begin_domain (ctl s0) (agent tk)) as H.
    by destruct (execute_agent_begin _ _).
  - unfold after_resume.
    pose proof (execute_agent_resume_domain (ctl s0) now (agent tk) o) as H.
    by destruct (execute_agent_resume _ _ _ _).
Qed.

(** A run neither registers nor forgets a unit. *)
Lemma reachable_domain tc s :
  reachable tc s → dom (agent_status (ctl s)) = dom (agent_status tc).
Proof.
  unfold reachable. revert s. apply rtc_ind_r.
  - unfold run_all, run_all_begin. by destruct (has_circular_dependency _).
  - intros s1 s2 _ Hstep IH. by rewrite (step_domain _ _ Hstep).
Qed.

(** A unit with a prerequisite that is not completed has no task and was
    not called, and is pending. *)
Lemma blocked_dependent s p d :
  inv s → p ∈ deps_of (dependency_graph (ctl s)) d →
  (∀ st, agent_status (ctl s) !! p = Some st → state st ≠ "completed") →
  (d ∉ agent <$> outstanding s) ∧ launches s d = 0 ∧
  (∀ std, agent_status (ctl s) !! d = Some std → state std = "pending").
Proof.
  intros Hinv Hdep Hp.
  assert (d ∉ (agent <$> ready s) ++ called s) as Hnot.
  { intros Hin. pose proof (inv_met _ Hinv _ Hin) as Hmet.
    pose proof (met_dep_completed _ _ _ _ Hmet Hdep) as Hc.
    apply dep_completed_state in Hc as (st0 & Hst0 & Hc). by apply (Hp _ Hst0). }
  split_and!.
  - unfold outstanding. rewrite fmap_app. intros [Hin|Hin]%elem_of_app; apply Hnot.
    + set_solver.
    + apply elem_of_app. right. by apply (inv_awaiting_called _ Hinv).
  - apply launches_absent. set_solver.
  - intros std Hd. destruct (decide (state std = "pending")) as [|Hne]; [done|].
    destruct (inv_terminal _ Hinv _ _ Hd Hne) as [Hc _]. set_solver.
Qed.
End controller_facts.

Section extra_controller.
Import DependencyGraph TriggerController Run RunSpec.

(** X12. [register_agent] leaves the agent pending with version [1], with
    a callback, and with the given prerequisites added after those it
    had; the prerequisites of the other agents are as before; and a
    controller that was fresh is fresh again. *)
Theorem X12_register_agent tc now a deps :
  fresh tc →
  fresh (register_agent tc now a deps) ∧
  agent_status (register_agent tc now a deps) !! a
    = Some (mk_status "pending" now 1 PNone None) ∧
  a ∈ agent_callbacks (register_agent tc now a deps) ∧
  ∀ b, deps_of (dependency_graph (register_agent tc now a deps)) b
       = if decide (a = b) then deps_of (dependency_graph tc) b ++ deps
         else deps_of (dependency_graph tc) b.
Proof.
  intros Hf. split_and!.
  - by apply register_agent_fresh.
  - simpl. apply lookup_insert_eq.
  - simpl. unfold set_callback. case_decide; set_solver.
  - intros b. simpl. apply deps_of_add_dependencies.
Qed.



(** X15. In a run that starts with every unit [pending], a unit with a
    prerequisite that was never registered is never launched: in every
    state of the run it has no task, its callback has not been called, and
    it is pending. *)
Theorem X15_unregistered_prerequisite_blocks tc s p d :
  fresh tc → reachable tc s →
  p ∈ deps_of (dependency_graph tc) d → agent_status tc !! p = None →
  (d ∉ agent <$> outstanding s) ∧ launches s d = 0 ∧
  (∀ std, agent_status (ctl s) !! d = Some std → state std = "pending").
Proof.
  intros Hf Hr Hp Hnone.
  apply (blocked_dependent s p d); [by eapply inv_reachable| |].
  - by rewrite (reachable_graph _ _ Hr).
  - intros st Hst. exfalso.
    assert (p ∈ dom (agent_status (ctl s))) as Hdom by (apply elem_of_dom; eauto).
    rewrite (reachable_domain _ _ Hr) in Hdom.
    apply elem_of_dom in Hdom as [? Hsome]. by rewrite Hnone in Hsome.
Qed.
End extra_controller.

Section extra_execute.
Import DependencyGraph TriggerController Run RunSpec.

(** X16. When the callback of a registered agent returns a dictionary
    with an [output], [execute_agent] stores that output in the step
    context and in the status, which becomes [completed] and keeps its
    timestamp, version and error; the version of the step context grows
    by one; and a task is created for exactly the dependents whose
    prerequisites are all completed by then. *)
Theorem X16_success_records_output tc now a result out st :
  agent_status tc !! a = Some st → dict_get "output" result = Some out →
  ∃ tc',
    execute_agent_resume tc now a (Returned result)
      = Finished tc' (_trigger_dependents tc' a) ∧
    agent_status tc'
      = <[a := mk_status "completed" (timestamp st) (version st) out (error st)]>
          (agent_status tc) ∧
    ContextManager.get_step_context (context_manager tc') a !! "output" = Some out ∧
    ContextManager.get_context_version (context_manager tc') a
      = (ContextManager.get_context_version (context_manager tc) a + 1)%Z ∧
    dependency_graph tc' = dependency_graph tc.
Proof.
  intros Hst Hout. unfold execute_agent_resume. rewrite Hout, Hst.
  eexists. split; [reflexivity|]. simpl. split_and!; try done.
  - by rewrite get_step_context_update, lookup_singleton_eq.
  - apply update_step_context_version.
Qed.

(** X17. When the dictionary the callback returns has no [output] key,
    the agent is [failed] with the text of the [KeyError] as error, no
    context is updated and no dependent is triggered. *)
Theorem X17_missing_output_fails tc now a result st :
  agent_status tc !! a = Some st → dict_get "output" result = None →
  ∃ tc',
    execute_agent_resume tc now a (Returned result) = Finished tc' [] ∧
    agent_status tc'
      = <[a := mk_status "failed" (timestamp st) (version st) (output st)
                         (Some "'output'")]> (agent_status tc) ∧
    context_manager tc' = context_manager tc.
Proof.
  intros Hst Hout. unfold execute_agent_resume, on_exception. rewrite Hout, Hst.
  eexists. split; [reflexivity|]. by simpl.
Qed.
End extra_execute.

(** * The flow of outputs and of tasks in a run *)

Section flow_facts.
Import DependencyGraph TriggerController Run RunSpec RunFlow.
Implicit Types (tc : TriggerController.t) (s : Run.t) (a d u : string).





(** *** The outputs *)






(** *** The tasks *)




End flow_facts.

Section extra_flow.
Import DependencyGraph TriggerController Run RunSpec RunFlow.



End extra_flow.

(** * The engine and the assembler *)

Section assembler_facts.
Import ProposalAssembler.

Lemma dict_get_elem {V} (d : list (string * V)) k v :
  dict_get k d = Some v → (k, v) ∈ d.
Proof.
  induction d as [|[k' v'] d IH]; simpl; [done|].
  case_decide; [intros [= ->]; subst; by left | right; auto].
Qed.

Lemma agent_to_section_map_inj a b name :
  dict_get a agent_to_section_map = Some name →
  dict_get b agent_to_section_map = Some name → a = b.
Proof.
  intros Ha%dict_get_elem Hb%dict_get_elem. unfold agent_to_section_map in *.
  repeat (apply elem_of_cons in Ha as [Ha|Ha];
          [simplify_eq;
           repeat (apply elem_of_cons in Hb as [Hb|Hb]; [by simplify_eq|]);
           by apply elem_of_nil in Hb|]).
  by apply elem_of_nil in Ha.
Qed.

Lemma section_name_ordered a name :
  dict_get a agent_to_section_map = Some name → name ∈ ordered_sections.
Proof.
  intros Ha%dict_get_elem. unfold agent_to_section_map in Ha.
  apply (bool_decide_unpack _).
  repeat (apply elem_of_cons in Ha as [Ha|Ha];
          [simplify_eq; vm_compute; exact I|]).
  by apply elem_of_nil in Ha.
Qed.

Lemma collect_section_content_spec cm :
  collected_from (ContextManager.step_contexts cm) (_collect_section_content cm).
Proof.
  unfold _collect_section_content.
  apply (map_fold_weak_ind (λ r m, collected_from m r) collect_one ∅).
  - intros name out. rewrite lookup_empty. split; [done|].
    intros (a & ctx & _ & Hctx & _). by rewrite lookup_empty in Hctx.
  - intros i x m r Hi IH name out. unfold collect_one.
    specialize (IH name out).
    assert (∀ a ctx, <[i:=x]> m !! a = Some ctx ↔ (a = i ∧ ctx = x) ∨ m !! a = Some ctx)
      as Hins.
    { intros a ctx. destruct (decide (i = a)) as [->|Hne].
      - rewrite lookup_insert_eq, Hi. naive_solver.
      - rewrite lookup_insert_ne by done. naive_solver. }
    destruct (x !! "output") as [o|] eqn:Hout;
      [destruct (dict_get i agent_to_section_map) as [n|] eqn:Hn|].
    + destruct (decide (n = name)) as [->|Hne].
      * rewrite lookup_insert_eq. split.
        -- intros [= <-]. exists i, x. by rewrite lookup_insert_eq.
        -- intros (a & ctx & Ha & Hctx & Ho).
           pose proof (agent_to_section_map_inj _ _ _ Ha Hn) as ->.
           rewrite lookup_insert_eq in Hctx. by simplify_eq.
      * rewrite lookup_insert_ne by done. rewrite IH.
        split; intros (a & ctx & Ha & Hctx & Ho); exists a, ctx; split_and!;
          try done.
        -- apply Hins. by right.
        -- apply Hins in Hctx as [[-> ->]|?]; [|done]. by simplify_eq.
    + rewrite IH.
      split; intros (a & ctx & Ha & Hctx & Ho); exists a, ctx; split_and!;
        try done.
      * apply Hins. by right.
      * apply Hins in Hctx as [[-> ->]|?]; [|done]. by simplify_eq.
    + rewrite IH.
      split; intros (a & ctx & Ha & Hctx & Ho); exists a, ctx; split_and!;
        try done.
      * apply Hins. by right.
      * apply Hins in Hctx as [[-> ->]|?]; [|done]. by simplify_eq.
Qed.

Lemma structure_narrative_entry collected id c :
  mk_section id c ∈ sections (_structure_narrative collected) ↔
  id ∈ ordered_sections ∧ collected !! id = Some c.
Proof.
  unfold _structure_narrative. simpl. rewrite list_elem_of_fmap. split.
  - intros (id' & [= -> ->] & [[c' Hc] Hid]%list_elem_of_filter).
    by rewrite Hc.
  - intros [Hid Hc]. exists id. rewrite Hc. split; [done|].
    apply list_elem_of_filter. split; [by eexists | done].
Qed.
End assembler_facts.

Section extra_engine.
Import DependencyGraph TriggerController Run RunSpec RunFlow Examples.


(** X23. What the engine registers on an empty controller is fresh and
    has no cycle: the seven agents form a chain from [scope_agent] to
    [pricing_agent], and [run_all] starts with the task of [scope_agent]
    alone. *)
Theorem X23_engine_registration clock :
  let ctrl := ProposalEngine._register_agents empty_controller clock in
  fresh ctrl ∧
  has_circular_dependency (dependency_graph ctrl) = false ∧
  dependencies (dependency_graph ctrl)
    = [("value_proposition_agent", ["scope_agent"]);
       ("executive_summary_agent", ["value_proposition_agent"]);
       ("approach_agent", ["executive_summary_agent"]);
       ("timeline_agent", ["approach_agent"]);
       ("team_agent", ["timeline_agent"]);
       ("pricing_agent", ["team_agent"])] ∧
  ready (run_all ctrl) = [mk_task "scope_agent" true].
Proof.
  split_and!.
  - apply register_agents_fresh, init_fresh.
  - vm_compute. reflexivity.
  - vm_compute. reflexivity.
  - vm_compute. reflexivity.
Qed.

Import ProposalAssembler.

(** X24. [_collect_section_content] returns, under the section name of
    each agent of [agent_to_section_map] whose step context has an
    [output], that output, and nothing else: agents outside the map and
    step contexts without output contribute nothing. *)
Theorem X24_collected_sections cm name out :
  _collect_section_content cm !! name = Some out ↔
  ∃ agent_id ctx,
    dict_get agent_id agent_to_section_map = Some name ∧
    ContextManager.step_contexts cm !! agent_id = Some ctx ∧
    ctx !! "output" = Some out.
Proof. apply collect_section_content_spec. Qed.

(** X25. The narrative built from the collected sections lists each
    collected section once, with its content, in the order of
    [ordered_sections]; it never has a section [understanding] or
    [appendices], for which no agent exists. *)
Theorem X25_narrative_of_collected cm :
  let n := _apply_formatting (_structure_narrative (_collect_section_content cm)) in
  (∀ id c, mk_section id c ∈ sections n ↔ _collect_section_content cm !! id = Some c) ∧
  section_id <$> sections n `sublist_of` ordered_sections ∧
  NoDup (section_id <$> sections n) ∧
  ("understanding" ∉ section_id <$> sections n) ∧
  ("appendices" ∉ section_id <$> sections n) ∧
  transitions n = ∅.
Proof.
  cbv zeta. unfold _apply_formatting.
  assert (section_id <$> sections (_structure_narrative (_collect_section_content cm))
          = filter (λ id, is_Some (_collect_section_content cm !! id))
                   ordered_sections) as Hids.
  { unfold _structure_narrative. simpl.
    induction (filter _ ordered_sections) as [|x l IH]; [done|].
    simpl. by f_equal. }
  assert (∀ id, id ∈ section_id <$> sections
                       (_structure_narrative (_collect_section_content cm)) →
                ∃ agent_id, dict_get agent_id agent_to_section_map = Some id) as Hagent.
  { intros id. rewrite Hids. intros [[c Hc] _]%list_elem_of_filter.
    apply collect_section_content_spec in Hc as (a & _ & Ha & _). by exists a. }
  split_and!.
  - intros id c. rewrite structure_narrative_entry. split; [by intros [_ ?]|].
    intros Hc. split; [|done].
    apply collect_section_content_spec in Hc as (a & _ & Ha & _).
    by eapply section_name_ordered.
  - rewrite Hids. apply sublist_filter.
  - rewrite Hids. apply NoDup_filter.
    apply (bool_decide_unpack (NoDup ordered_sections)). vm_compute. exact I.
  - intros [a Ha]%Hagent. revert Ha. unfold agent_to_section_map. simpl.
    by repeat case_decide.
  - intros [a Ha]%Hagent. revert Ha. unfold agent_to_section_map. simpl.
    by repeat case_decide.
  - done.
Qed.

End extra_engine.

Section more_concrete.
Import DependencyGraph TriggerController Run RunSpec RunFlow Examples MoreExamples.

Local Ltac by_step lem := refine (lem _); vm_compute; reflexivity.

Lemma diamond_keys_NoDup :
  NoDup (dict_keys (dependencies (dependency_graph diamond_controller))).
Proof. apply diamond_controller_fresh. Qed.

Lemma chain_mid_needs_root :
  deps_of (dependency_graph chain_controller) "mid" = ["root"].
Proof. vm_compute. reflexivity. Qed.






Lemma chain_root_status :
  agent_status chain_controller !! "root"
  = Some (mk_status "pending" 0 1 PNone None).
Proof. vm_compute. reflexivity. Qed.

Lemma no_step_context_no_outputs ctrl :
  ContextManager.step_contexts (context_manager ctrl) = ∅ → no_outputs ctrl.
Proof. intros H a ctx Hctx. rewrite H in Hctx. by rewrite lookup_empty in Hctx. Qed.

Lemma chain_controller_no_outputs : no_outputs chain_controller.
Proof. apply no_step_context_no_outputs. vm_compute. reflexivity. Qed.


Lemma diamond_controller_no_outputs : no_outputs diamond_controller.
Proof. apply no_step_context_no_outputs. vm_compute. reflexivity. Qed.





Lemma ghost_controller_fresh : fresh ghost_controller.
Proof. unfold ghost_controller. apply register_agent_fresh, init_fresh. Qed.

Lemma ghost_needs_ghost :
  deps_of (dependency_graph ghost_controller) "x" = ["ghost"].
Proof. vm_compute. reflexivity. Qed.

Lemma ghost_unregistered : agent_status ghost_controller !! "ghost" = None.
Proof. vm_compute. reflexivity. Qed.
End more_concrete.

Section witnesses.
Import DependencyGraph TriggerController Run RunSpec RunFlow Examples MoreExamples.

Lemma X2_get_dependents_converse_witness :
  NoDup (dict_keys (dependencies (dependency_graph diamond_controller))) ∧
  NoDup (get_dependents (dependency_graph diamond_controller) "C").
Proof.
  split; [apply diamond_keys_NoDup|].
  apply (X2_get_dependents_converse (dependency_graph diamond_controller) "C"
           diamond_keys_NoDup).
Defined.

Lemma X3_duplicate_prerequisite_harmless_witness :
  "root" ∈ deps_of (dependency_graph chain_controller) "mid" ∧
  has_circular_dependency
    (add_dependency (dependency_graph chain_controller) "mid" "root")
  = has_circular_dependency (dependency_graph chain_controller).
Proof.
  assert ("root" ∈ deps_of (dependency_graph chain_controller) "mid") as Hdep.
  { rewrite chain_mid_needs_root. apply list_elem_of_here. }
  split; [exact Hdep|].
  apply (X3_duplicate_prerequisite_harmless (dependency_graph chain_controller)
           "mid" "root" "mid" ∅ Hdep).
Defined.


Lemma X6_history_append_only_witness :
  ContextManager.context_history
    (ContextCalls.apply_calls ContextManager.init master_calls) !! 0
  = Some (ContextManager.mk_entry 1 "master_context"
            {["client_info" := PStr "Acme"]} 0) ∧
  ContextManager.context_history
    (ContextCalls.apply_call
       (ContextCalls.apply_calls ContextManager.init master_calls)
       (ContextCalls.UpdateMaster 3 {["budget" := PInt 5]})) !! 0
  = Some (ContextManager.mk_entry 1 "master_context"
            ({["budget" := PInt 5]} ∪ {["client_info" := PStr "Acme"]}) 0).
Proof.
  assert (ContextManager.context_history
            (ContextCalls.apply_calls ContextManager.init master_calls) !! 0
          = Some (ContextManager.mk_entry 1 "master_context"
                    {["client_info" := PStr "Acme"]} 0))
    as Hfirst by (vm_compute; reflexivity).
  split; [exact Hfirst|].
  rewrite (proj1 (proj2 X6_history_append_only) _
             (ContextCalls.UpdateMaster 3 {["budget" := PInt 5]}) _ _ Hfirst).
  vm_compute. reflexivity.
Defined.

Lemma X10_no_context_no_version_witness :
  ContextManager.step_contexts
    (ContextCalls.apply_calls ContextManager.init some_calls) !! "d" = None ∧
  ContextManager.get_context_version
    (ContextCalls.apply_calls ContextManager.init some_calls) "d" = 0%Z.
Proof.
  assert (ContextManager.step_contexts
            (ContextCalls.apply_calls ContextManager.init some_calls) !! "d" = None)
    as Hnone by (vm_compute; reflexivity).
  split; [exact Hnone|]. exact (X10_no_context_no_version some_calls "d" Hnone).
Defined.

Lemma X12_register_agent_witness :
  fresh empty_controller ∧ fresh (register_agent empty_controller 0 "root" []).
Proof.
  split; [apply empty_controller_fresh|].
  apply (X12_register_agent empty_controller 0 "root" [] empty_controller_fresh).
Defined.



Lemma X15_unregistered_prerequisite_blocks_witness :
  fresh ghost_controller ∧ agent_status ghost_controller !! "ghost" = None ∧
  launches (run_all ghost_controller) "x" = 0.
Proof.
  assert ("ghost" ∈ deps_of (dependency_graph ghost_controller) "x") as Hdep.
  { rewrite ghost_needs_ghost. apply list_elem_of_here. }
  split; [apply ghost_controller_fresh|]. split; [apply ghost_unregistered|].
  apply (X15_unregistered_prerequisite_blocks ghost_controller
           (run_all ghost_controller) "ghost" "x" ghost_controller_fresh
           (rtc_refl _ _) Hdep ghost_unregistered).
Defined.

Lemma X16_success_records_output_witness :
  ∃ ctrl,
    execute_agent_resume chain_controller 1 "root" (returns "R")
      = Finished ctrl (_trigger_dependents ctrl "root") ∧
    ContextManager.get_step_context (context_manager ctrl) "root" !! "output"
      = Some (PStr "R").
Proof.
  destruct (X16_success_records_output chain_controller 1 "root"
              [("output", PStr "R")] (PStr "R") _ chain_root_status eq_refl)
    as (ctrl & Hrun & _ & Hout & _).
  exists ctrl. split; [exact Hrun | exact Hout].
Defined.

Lemma X17_missing_output_fails_witness :
  ∃ ctrl,
    execute_agent_resume chain_controller 1 "root" (Returned []) = Finished ctrl [] ∧
    context_manager ctrl = context_manager chain_controller.
Proof.
  destruct (X17_missing_output_fails chain_controller 1 "root" [] _
              chain_root_status eq_refl) as (ctrl & Hrun & _ & Hcm).
  exists ctrl. split; [exact Hrun | exact Hcm].
Defined.





End witnesses.

